(** * qtumjs-eth: contract handle, confirmation tracker and log poller

    A shallow embedding of [TxReceiptPromise.ts], [abi.ts], [Contract.ts]
    and [EventListener.ts], of the helper [assertThrow] of the tests, and
    of the method resolver of [MethodMap.ts] as the specification describes
    it.

    Asynchronous code is written as explicit machines: every [await] is a
    suspension point, and what the node answers there is an input of the
    machine; what the code does to the outside (requests, sleeps, callback
    invocations) is its output.  Block heights and confirmation counts are
    JavaScript numbers holding integers; they are modelled in [Z].

    The first part holds the embedding, module by source file; the second
    part, from [ConfirmationTracker] on, the properties. *)

From Stdlib Require Import ZArith Lia Ascii String.
From stdpp Require Import base option list strings gmap.

#[local] Set Warnings "-register-all".

(* ===================================================================== *)
(** * JavaScript values                                                    *)
(* ===================================================================== *)

Module Js.

(** The values that cross the API: method arguments, decoded outputs,
    request options ([number | string]). *)
Inductive JsValue :=
| JUndefined
| JBool (b : bool)
| JNumber (n : Z)
| JString (s : string)
| JBigNumber (n : Z)
| JArray (items : list JsValue).

(** A settled promise: fulfilled with a value or rejected with
    [new Error(message)]. *)
Inductive Settled (A : Type) :=
| Fulfilled (value : A)
| Threw (message : string).
Arguments Fulfilled {A} value.
Arguments Threw {A} message.

(** [items.map(f)] for a callback that may throw: the items are taken in
    order, and the first throw leaves the [map] with nothing returned. *)
Fixpoint mapSettled {A B} (f : A → Settled B) (items : list A)
    : Settled (list B) :=
  match items with
  | [] => Fulfilled []
  | item :: items =>
    match f item with
    | Threw message => Threw message
    | Fulfilled b =>
      match mapSettled f items with
      | Threw message => Threw message
      | Fulfilled bs => Fulfilled (b :: bs)
      end
    end
  end.

End Js.

(* ===================================================================== *)
(** * EthRPC.ts: the declarations the modelled code imports               *)
(* ===================================================================== *)

Module EthRPC.
Import Js.
#[local] Open Scope Z_scope.

(** Modelled from the spec: [IGetTransactionResult] of EthRPC.ts, which is
    not part of the sources at hand.  The code only passes the value on. *)
Record IGetTransactionResult := {
  tx_hash : string;
  tx_blockNumber : option Z
}.

(** Modelled from the spec: [ITransactionLog] / [ILogEntry] / [ILogItem],
    the raw log fields (address, topics, data, block and transaction
    identifiers). *)
Record ILogEntry := {
  log_address : string;
  log_topics : list string;
  log_data : string;
  log_blockNumber : Z;
  log_transactionHash : string
}.

(** Modelled from the spec: [IGetTransactionReceiptResult].  [status] is
    [null] or the number [Number(receipt.status)] evaluates to;
    [blockNumber] is [Number(receipt.blockNumber)]. *)
Record IGetTransactionReceiptResult := {
  transactionHash : string;
  blockNumber : Z;
  status : option Z;
  logs : list ILogEntry
}.

(** Modelled from the spec: [typeBlockTags], a concrete height or the
    symbolic marker ["latest"]. *)
Inductive typeBlockTags :=
| Height (n : Z)
| Latest.

(** Modelled from the spec: [IGetLogsRequest].  The options object a caller
    hands to [getLogs] / [onLog]; an absent property is [None]. *)
Record IGetLogsRequest := {
  fromBlock : option typeBlockTags;
  toBlock : option typeBlockTags;
  address : option string;
  topics : option (list string)
}.

(** Modelled from the spec: the request object of [rpc.call]; the options
    of the caller spread out, then [to] and [data]. *)
Record ICallRequest := {
  call_from : option string;
  call_gasLimit : option JsValue;
  call_gasPrice : option JsValue;
  call_value : option JsValue;
  call_blockNumber : option typeBlockTags;
  call_to : string;
  call_data : string
}.

(** Modelled from the spec: the request object of [rpc.sendTransaction]. *)
Record ISendTransactionRequest := {
  send_value : option JsValue;
  send_gasLimit : option JsValue;
  send_gasPrice : option JsValue;
  send_from : option string;
  send_nonce : option JsValue;
  send_to : string;
  send_data : string
}.

(** Modelled from the spec: [ISendTransactionResult]. *)
Record ISendTransactionResult := {
  txid : string
}.

(** The node behind the [EthRPC] object: what it answers to each request.
    The node is trusted to answer; transport failures are outside the
    modelled code. *)
Record Node := {
  node_call : ICallRequest → string;
  node_sendTransaction : ISendTransactionRequest → ISendTransactionResult;
  node_getTransaction : string → option IGetTransactionResult;
  node_getLogs : IGetLogsRequest → list ILogEntry
}.

End EthRPC.

(* ===================================================================== *)
(** * TxReceiptPromise.ts                                                 *)
(* ===================================================================== *)

Module TxReceiptPromise.
Import EthRPC.
#[local] Open Scope Z_scope.

(** [this._emitter.emit(EVENT_CONFIRM, tx, receipt)]: one invocation of
    every handler registered through [onConfirm]. *)
Record ConfirmEmit := {
  emit_tx : IGetTransactionResult;
  emit_receipt : IGetTransactionReceiptResult
}.

(** [ITxReceiptConfirmOptions]. *)
Record ITxReceiptConfirmOptions := {
  pollInterval : option Z
}.

Definition ETH_HALF_ESTIMATED_AVERAGE_BLOCK_TIME : Z := 7500.

(** What one turn of the [while (true)] loop of [confirm] does: it fires
    the handlers, sleeps [ms] and continues with the counter it remembers,
    or it leaves the loop. *)
Inductive PollResult :=
| Sleep (emitted : list ConfirmEmit) (ms : Z) (prevConfirmationCounter : Z)
| Throw (message : string)
| Return (receipt : IGetTransactionReceiptResult).

(** How [confirm] stands after a finite number of polls. *)
Inductive Outcome :=
| Resolved (receipt : IGetTransactionReceiptResult)
| Rejected (message : string)
| Polling (prevConfirmationCounter : Z).

Section Confirm.

(** [TRANSACTION_STATUS.FAILED], an enum member of EthRPC.ts. *)
Variable FAILED : Z.

Definition hasTransactionError (receipt : IGetTransactionReceiptResult) : bool :=
  match status receipt with
  | Some s => s =? FAILED
  | None => false
  end.

(** [for (let i = 0; i < confirmationCount; i++) emit(...)]. *)
Definition emitTimes (confirmationCount : Z) (tx : IGetTransactionResult)
    (receipt : IGetTransactionReceiptResult) : list ConfirmEmit :=
  replicate (Z.to_nat confirmationCount) {| emit_tx := tx; emit_receipt := receipt |}.

(** The loop body, lines 49-93: [receipt] and [currentBlockNumber] are the
    node's answers to [getTransactionReceipt] and [getBlockNumber]. *)
Definition poll (confirm pollInterval : Z) (tx : IGetTransactionResult)
    (prevConfirmationCounter : Z)
    (receipt : option IGetTransactionReceiptResult)
    (currentBlockNumber : Z) : PollResult :=
  match receipt with
  | None => Sleep [] pollInterval prevConfirmationCounter
  | Some receipt =>
    if hasTransactionError receipt then Throw "Transaction process error"
    else
      let confirmationCounter := currentBlockNumber - blockNumber receipt in
      if (confirmationCounter =? 0) && (0 <? confirm) then
        Sleep [] pollInterval prevConfirmationCounter
      else if confirmationCounter <? confirm then
        if negb (confirmationCounter =? prevConfirmationCounter) then
          let confirmationCount := confirmationCounter - prevConfirmationCounter in
          Sleep (emitTimes confirmationCount tx receipt) pollInterval confirmationCount
        else
          Sleep (emitTimes 1 tx receipt) pollInterval prevConfirmationCounter
      else Return receipt
  end.

(** The loop, run against the successive answers of the node to
    [getTransactionReceipt] and [getBlockNumber]: the handler invocations
    in order, and how the call stands when the answers run out. *)
Fixpoint confirm_loop (confirm pollInterval : Z) (tx : IGetTransactionResult)
    (prevConfirmationCounter : Z)
    (polls : list (option IGetTransactionReceiptResult * Z))
    : list ConfirmEmit * Outcome :=
  match polls with
  | [] => ([], Polling prevConfirmationCounter)
  | (receipt, currentBlockNumber) :: polls =>
    match poll confirm pollInterval tx prevConfirmationCounter receipt
               currentBlockNumber with
    | Sleep emitted _ prev' =>
      let (later, outcome) := confirm_loop confirm pollInterval tx prev' polls in
      (emitted ++ later, outcome)
    | Throw message => ([], Rejected message)
    | Return receipt => ([], Resolved receipt)
    end
  end.

(** [confirm(confirm = 3, opts = {})]: [tx] is the node's answer to
    [getTransaction(this.txid)]. *)
Definition confirm (confirm : option Z) (opts : ITxReceiptConfirmOptions)
    (tx : option IGetTransactionResult)
    (polls : list (option IGetTransactionReceiptResult * Z))
    : list ConfirmEmit * Outcome :=
  match tx with
  | None => ([], Rejected "Cannot find transaction(null")
  | Some tx =>
    confirm_loop (default 3 confirm)
      (default ETH_HALF_ESTIMATED_AVERAGE_BLOCK_TIME (pollInterval opts))
      tx 0 polls
  end.

Definition resolved (o : Outcome) : option IGetTransactionReceiptResult :=
  match o with Resolved r => Some r | _ => None end.

Definition rejected (o : Outcome) : option string :=
  match o with Rejected m => Some m | _ => None end.

End Confirm.

End TxReceiptPromise.

(* ===================================================================== *)
(** * ethjs-abi.ts: the declarations of the ABI codec                     *)
(* ===================================================================== *)

Module EthjsAbi.
Import Js EthRPC.

(** Modelled from the spec: one parameter of an ABI definition, a name and
    a declared type. *)
Record IABIParam := {
  param_name : string;
  param_type : string
}.

(** Modelled from the spec: [IABIMethod], a definition of the ABI: name,
    ordered inputs, outputs, and the flag of a read-only method. *)
Record IABIMethod := {
  name : string;
  type : string;
  inputs : list IABIParam;
  outputs : list IABIParam;
  constant : bool
}.

(** Modelled from the spec: [IParsedLog], a decoded event: its name and its
    fields. *)
Record IParsedLog := {
  _eventName : string;
  fields : list (string * JsValue)
}.

(** The three functions taken from [require("ethjs-abi")].  [decodeParams]
    yields an object keyed by position; encoding and decoding may throw,
    and so may the decoder [logDecoder(abi, true)] returns when it is
    applied to logs: it leaves out the logs of events it does not know, and
    throws on a log of an event it knows that does not decode. *)
Record IETHABI := {
  encodeMethod : IABIMethod → list JsValue → Settled string;
  decodeParams : list string → list string → string → Settled (gmap nat JsValue);
  logDecoder : list IABIMethod → bool → list ILogEntry → Settled (list IParsedLog)
}.

End EthjsAbi.

(* ===================================================================== *)
(** * Asynchronous computations and what they do to the outside           *)
(* ===================================================================== *)

Module Async.
Import Js EthRPC EthjsAbi.

(** A request sent to the node, or a call into the ABI codec. *)
Inductive Effect :=
| RpcCall (req : ICallRequest)
| RpcSendTransaction (req : ISendTransactionRequest)
| RpcGetTransaction (txid : string)
| RpcGetLogs (req : IGetLogsRequest)
| AbiEncodeMethod (method : IABIMethod) (args : list JsValue)
| AbiDecodeParams (types : list string) (data : string).

(** An [async] function body: it extends the log of effects performed so
    far and settles. *)
Definition Async (A : Type) : Type := list Effect → Settled A * list Effect.

#[global] Instance async_ret : MRet Async :=
  λ A a done, (Fulfilled a, done).

#[global] Instance async_bind : MBind Async :=
  λ A B k m done,
    match m done with
    | (Fulfilled a, done') => k a done'
    | (Threw message, done') => (Threw message, done')
    end.

Definition throw {A} (message : string) : Async A :=
  λ done, (Threw message, done).

(** Perform [e] and continue with the answer [r]. *)
Definition perform {A} (e : Effect) (r : Settled A) : Async A :=
  λ done, (r, done ++ [e]).

(** A value that may throw where it is computed. *)
Definition settle {A} (r : Settled A) : Async A :=
  λ done, (r, done).

Definition performed {A} (m : Async A) : list Effect := (m []).2.

Definition sends_transaction (e : Effect) : bool :=
  match e with RpcSendTransaction _ => true | _ => false end.

Definition decodes (e : Effect) : bool :=
  match e with AbiDecodeParams _ _ => true | _ => false end.

End Async.

(* ===================================================================== *)
(** * abi.ts                                                              *)
(* ===================================================================== *)

Module Abi.
Import Js EthRPC EthjsAbi Async.

Section WithCodec.

Variable ethjs : IETHABI.

Definition encodeInputs (method : IABIMethod) (args : list JsValue) : Async string :=
  perform (AbiEncodeMethod method args) (encodeMethod ethjs method args).

(** [Array.from({length: n, ...result})]: [n] values, [undefined] where the
    decoded object has no such index. *)
Definition positional (result : gmap nat JsValue) (n : nat) : list JsValue :=
  (λ i, default JUndefined (result !! i)) <$> seq 0 n.

Definition decodeOutputs (method : IABIMethod) (outputData : string)
    : Async (list JsValue) :=
  let types := param_type <$> outputs method in
  result ← perform (AbiDecodeParams types outputData)
                   (decodeParams ethjs [] types outputData);
  mret (positional result (length types)).

(** [class ContractLogDecoder]: [_decoder] is [logDecoder(abi, true)]. *)
Record ContractLogDecoder := {
  abi : list IABIMethod;
  _decoder : list ILogEntry → Settled (list IParsedLog)
}.

Definition newContractLogDecoder (abi : list IABIMethod) : ContractLogDecoder :=
  {| abi := abi; _decoder := logDecoder ethjs abi true |}.

End WithCodec.

(** [decode(rawlog)]: [null] for an empty result, its first element
    otherwise; nothing catches what [this._decoder] throws. *)
Definition decode (this : ContractLogDecoder) (rawlog : ILogEntry)
    : Settled (option IParsedLog) :=
  match _decoder this [rawlog] with
  | Threw message => Threw message
  | Fulfilled [] => Fulfilled None
  | Fulfilled (log :: _) => Fulfilled (Some log)
  end.

End Abi.

(* ===================================================================== *)
(** * MethodMap.ts: overload-aware method resolution                      *)
(* ===================================================================== *)

Module MethodMap.
Import Js EthjsAbi.

(** Modelled from the spec: the failures of [resolve], MethodMap.ts being
    absent from the sources at hand. *)
Inductive ResolveError :=
| UnknownMethod
| AmbiguousOverload
| ArityMismatch
| TypeMismatch.

(** Modelled from the spec: the full signature string
    ["name(type,type,...)"] of a definition. *)
Definition signature (d : IABIMethod) : string :=
  name d +:+ "(" +:+ String.concat "," (param_type <$> inputs d) +:+ ")".

(** Modelled from the spec: [MethodIndex], the mapping from a bare name to
    the definitions sharing it and the mapping from a full signature to its
    definition. *)
Record MethodIndex := {
  byName : gmap string (list IABIMethod);
  bySignature : gmap string IABIMethod
}.

(** Modelled from the spec: the index is built once from the ABI's method
    definitions; the definitions under one name keep the ABI's order. *)
Definition buildIndex (methods : list IABIMethod) : MethodIndex :=
  {| byName :=
       foldr (λ d m, <[name d := d :: default [] (m !! name d)]> m) ∅ methods;
     bySignature := list_to_map ((λ d, (signature d, d)) <$> methods) |}.

(** Modelled from the spec: "parentheses present" in the input. *)
Fixpoint hasParentheses (s : string) : bool :=
  match s with
  | EmptyString => false
  | String c s =>
    if Ascii.eqb c "("%char || Ascii.eqb c ")"%char then true else hasParentheses s
  end.

Section Resolve.

(** Modelled from the spec: the best-effort check that a supplied value is
    representable as a declared type.  The resolver is stated over any such
    check; [representable] below is the one the spec spells out. *)
Variable compatible : JsValue → string → bool.

(** Modelled from the spec: every supplied value fits the declared type at
    its position. *)
Fixpoint accepts (args : list JsValue) (params : list IABIParam) : bool :=
  match args, params with
  | [], [] => true
  | v :: args, p :: params => compatible v (param_type p) && accepts args params
  | _, _ => false
  end.

(** Modelled from the spec: the argument count matches the definition. *)
Definition sameArity (args : list JsValue) (d : IABIMethod) : bool :=
  Nat.eqb (length (inputs d)) (length args).

(** Modelled from the spec: [resolve(nameOrSignature, args)], section 4.1.
    A full signature is looked up exactly.  A bare name collects the
    definitions sharing it: a single candidate must match the argument
    count; overloads are filtered by argument count, then by type
    compatibility, and exactly one survivor is selected. *)
Definition resolve (index : MethodIndex) (nameOrSignature : string)
    (args : list JsValue) : ResolveError + IABIMethod :=
  if hasParentheses nameOrSignature then
    match bySignature index !! nameOrSignature with
    | Some d => inr d
    | None => inl UnknownMethod
    end
  else
    match default [] (byName index !! nameOrSignature) with
    | [] => inl UnknownMethod
    | [d] => if sameArity args d then inr d else inl ArityMismatch
    | candidates =>
      let byCount := List.filter (sameArity args) candidates in
      match List.filter (λ d, accepts args (inputs d)) byCount with
      | [d] => inr d
      | [] => inl (if byCount is [] then ArityMismatch else TypeMismatch)
      | _ => inl AmbiguousOverload
      end
    end.

End Resolve.

(** Modelled from the spec: the declared types the compatibility check
    tells apart: array types ["T[]"], integer types, string and bytes
    types. *)
Definition isArrayType (t : string) : bool :=
  String.prefix "]" (String.rev t).

(** Modelled from the spec: the element type of an array type, read off
    the reversed type name. *)
Fixpoint afterOpeningBracket (reversed : string) : string :=
  match reversed with
  | EmptyString => EmptyString
  | String c rest =>
    if Ascii.eqb c "["%char then rest else afterOpeningBracket rest
  end.

(** Modelled from the spec: the element type of an array type. *)
Definition elementType (t : string) : string :=
  String.rev (afterOpeningBracket (String.rev t)).

(** Modelled from the spec: the integer types, [intN] and [uintN]. *)
Definition isIntegerType (t : string) : bool :=
  String.prefix "int" t || String.prefix "uint" t.

(** Modelled from the spec: the string and bytes types. *)
Definition isStringType (t : string) : bool :=
  String.eqb t "string" || String.prefix "bytes" t.

(** Modelled from the spec: a decimal digit. *)
Definition isDigit (c : ascii) : bool :=
  (48 <=? Ascii.nat_of_ascii c)%nat && (Ascii.nat_of_ascii c <=? 57)%nat.

(** Modelled from the spec: a numeric string, one of decimal digits. *)
Definition isNumericString (s : string) : bool :=
  negb (String.eqb s "") && forallb isDigit (list_ascii_of_string s).

(** Modelled from the spec: a numeric literal, numeric string or big
    integer is compatible with an integer type, a string with a string or
    bytes type, an array with an array type whose element type accepts each
    item; of the other declared types the spec says nothing and the check
    lets every value pass.  [depth] bounds the nesting of array types. *)
Fixpoint representable (depth : nat) (v : JsValue) (t : string) : bool :=
  if isArrayType t then
    match depth, v with
    | S depth, JArray items => forallb (λ item, representable depth item (elementType t)) items
    | _, _ => false
    end
  else if isIntegerType t then
    match v with
    | JNumber _ | JBigNumber _ => true
    | JString s => isNumericString s
    | _ => false
    end
  else if isStringType t then
    match v with
    | JString _ => true
    | _ => false
    end
  else true.


End MethodMap.

(* ===================================================================== *)
(** * Contract.ts: the interfaces                                         *)
(* ===================================================================== *)

Module ContractTypes.
Import Js EthRPC EthjsAbi Abi.

(** [IContractSendRequestOptions]. *)
Record IContractSendRequestOptions := {
  sopt_value : option JsValue;
  sopt_gasLimit : option JsValue;
  sopt_gasPrice : option JsValue;
  sopt_from : option string;
  sopt_nonce : option JsValue
}.

(** [IContractCallRequestOptions]. *)
Record IContractCallRequestOptions := {
  copt_from : option string;
  copt_gasLimit : option JsValue;
  copt_gasPrice : option JsValue;
  copt_value : option JsValue;
  copt_blockNumber : option typeBlockTags
}.

(** [IContractSendResult]: [{...transaction, txid, method, confirm}]; the
    bound [confirm] function is [Contract.confirm] applied to [txid]. *)
Record IContractSendResult := {
  sent_transaction : option IGetTransactionResult;
  sent_txid : string;
  sent_method : string
}.

(** [IContractEventLog]: [{...entry, event: parsedLog}], the raw log and the
    decoded event, [null] if no ABI definition is found. *)
Record IContractEventLog := {
  entry : ILogEntry;
  event : option IParsedLog
}.

(** [(entry) => ({...entry, event: this.logDecoder.decode(entry)})]. *)
Definition decodeEntry (logDecoder : ContractLogDecoder) (entry : ILogEntry)
    : Settled IContractEventLog :=
  match decode logDecoder entry with
  | Threw message => Threw message
  | Fulfilled parsedLog => Fulfilled {| entry := entry; event := parsedLog |}
  end.

(** [result.map((entry) => ({...entry, event: this.logDecoder.decode(entry)}))],
    the body shared by [Contract.getLogs] and [EventListener.getLogs]: a
    [decode] that throws leaves the [map], and no entry is returned. *)
Definition decodeEntries (logDecoder : ContractLogDecoder)
    (result : list ILogEntry) : Settled (list IContractEventLog) :=
  mapSettled (decodeEntry logDecoder) result.

End ContractTypes.

(* ===================================================================== *)
(** * The polling loop of [Contract.onLog] and [EventListener.onLog]      *)
(* ===================================================================== *)

(** The two [onLog] methods are the same loop line for line, but for two
    places: the request [this.getLogs] sends to the node ([Contract.getLogs]
    adds its own address), and [EventListener.onLog] keeping
    [logPromise.cancel] to call it on cancellation.  The loop is written
    once over these two.  It is a machine: it runs until it is suspended at
    an [await], and resumes on the answer. *)

Module OnLog.
Import Js EthRPC EthjsAbi ContractTypes.
#[local] Open Scope Z_scope.

(** Where the loop is suspended, or [Returned] once [while (!canceled)] has
    seen the flag, or [Thrown] once [await this.getLogs(...)] has thrown
    and the loop's promise is rejected. *)
Inductive Suspension :=
| AwaitBlockNumber
| AwaitSleep
| AwaitLogs
| Returned
| Thrown (message : string).

(** What resumes the loop, and the caller invoking the cancel function
    while the loop is suspended. *)
Inductive Input :=
| BlockNumber (n : Z)
| Woke
| Logs (result : list ILogEntry)
| Cancel.

(** What the loop does to the outside. *)
Inductive Action :=
| GetBlockNumber
| SleepFor (ms : Z)
| GetLogs (req : IGetLogsRequest)
| Deliver (entry : IContractEventLog)
| CancelPromise.

(** The variables [onLog] closes over. *)
Record Subscription := {
  opts : IGetLogsRequest;
  fromBlock : typeBlockTags;
  toBlock : typeBlockTags;
  canceled : bool;
  latestBlockNum : option Z;
  isFirstFetch : bool;
  fetchToLatest : bool;
  promiseCancel : bool;
  suspended : Suspension
}.

Definition ETH_HALF_ESTIMATED_AVERAGE_BLOCK_TIME : Z := 7500.

(** [given || "latest"]: the right operand when the left one is falsy, that
    is [undefined] or the number 0. *)
Definition orLatest (given : option typeBlockTags) : typeBlockTags :=
  match given with
  | None => Latest
  | Some (Height 0) => Latest
  | Some tag => tag
  end.

(** [typeof b === "number"]. *)
Definition isNumber (b : typeBlockTags) : bool :=
  match b with Height _ => true | Latest => false end.

(** [a > b]; a comparison with the string ["latest"] is false. *)
Definition gt (a b : typeBlockTags) : bool :=
  match a, b with
  | Height x, Height y => y <? x
  | _, _ => false
  end.

(** [a === b]. *)
Definition strictEq (a b : typeBlockTags) : bool :=
  match a, b with
  | Height x, Height y => x =? y
  | Latest, Latest => true
  | _, _ => false
  end.

Section Loop.

(** The request that reaches the node for [this.getLogs(req)]. *)
Variable request : IGetLogsRequest → IGetLogsRequest.
(** The entries [this.getLogs] makes of the node's answer, or its throw. *)
Variable entries : list ILogEntry → Settled (list IContractEventLog).
(** Whether the loop keeps [logPromise.cancel] for the cancel function. *)
Variable keepsCancel : bool.
(** The consumer [fn] as the loop sees it: handed an entry it runs, and it
    may invoke the cancel function while it does; [fn entry] tells whether
    it has. *)
Variable fn : IContractEventLog → bool.

(** The cancel function [onLog] returns: [canceled = true], and
    [promiseCancel()] where one is kept. *)
Definition cancel (s : Subscription) : Subscription * list Action :=
  ({| opts := opts s; fromBlock := fromBlock s; toBlock := toBlock s;
      canceled := true; latestBlockNum := latestBlockNum s;
      isFirstFetch := isFirstFetch s; fetchToLatest := fetchToLatest s;
      promiseCancel := promiseCancel s; suspended := suspended s |},
   if promiseCancel s then [CancelPromise] else []).

(** [for (const entry of result) fn(entry)]. *)
Fixpoint deliver (s : Subscription) (result : list IContractEventLog)
    : Subscription * list Action :=
  match result with
  | [] => (s, [])
  | entry :: result =>
    let (s', called) := if fn entry then cancel s else (s, []) in
    let (s'', later) := deliver s' result in
    (s'', Deliver entry :: called ++ later)
  end.

(** [while (!canceled)]: leave the loop, or ask for the block number. *)
Definition loopHead (s : Subscription) : Subscription * list Action :=
  if canceled s then
    ({| opts := opts s; fromBlock := fromBlock s; toBlock := toBlock s;
        canceled := canceled s; latestBlockNum := latestBlockNum s;
        isFirstFetch := isFirstFetch s; fetchToLatest := fetchToLatest s;
        promiseCancel := promiseCancel s; suspended := Returned |}, [])
  else
    ({| opts := opts s; fromBlock := fromBlock s; toBlock := toBlock s;
        canceled := canceled s; latestBlockNum := latestBlockNum s;
        isFirstFetch := isFirstFetch s; fetchToLatest := fetchToLatest s;
        promiseCancel := promiseCancel s; suspended := AwaitBlockNumber |},
     [GetBlockNumber]).

(** The loop from one suspension to the next. *)
Definition step (s : Subscription) (i : Input) : Subscription * list Action :=
  match i, suspended s with
  | Cancel, _ => cancel s
  | BlockNumber n, AwaitBlockNumber =>
    let fromBlock' := if isNumber (fromBlock s) then fromBlock s else Height n in
    let toBlock' := if fetchToLatest s then Height n else toBlock s in
    if gt fromBlock' toBlock' || (negb (isFirstFetch s) && strictEq fromBlock' toBlock') then
      ({| opts := opts s; fromBlock := fromBlock'; toBlock := toBlock';
          canceled := canceled s; latestBlockNum := Some n;
          isFirstFetch := isFirstFetch s; fetchToLatest := fetchToLatest s;
          promiseCancel := promiseCancel s; suspended := AwaitSleep |},
       [SleepFor ETH_HALF_ESTIMATED_AVERAGE_BLOCK_TIME])
    else
      ({| opts := opts s; fromBlock := fromBlock'; toBlock := toBlock';
          canceled := canceled s; latestBlockNum := Some n;
          isFirstFetch := false; fetchToLatest := fetchToLatest s;
          promiseCancel := keepsCancel; suspended := AwaitLogs |},
       [GetLogs (request {| EthRPC.fromBlock := Some fromBlock';
                            EthRPC.toBlock := Some toBlock';
                            address := address (opts s);
                            topics := topics (opts s) |})])
  | Woke, AwaitSleep => loopHead s
  | Logs result, AwaitLogs =>
    match entries result with
    | Threw message =>
      ({| opts := opts s; fromBlock := fromBlock s; toBlock := toBlock s;
          canceled := canceled s; latestBlockNum := latestBlockNum s;
          isFirstFetch := isFirstFetch s; fetchToLatest := fetchToLatest s;
          promiseCancel := promiseCancel s; suspended := Thrown message |}, [])
    | Fulfilled batch =>
      let (s, delivered) := deliver s batch in
      let (s', next) :=
        loopHead {| opts := opts s;
                    fromBlock := match latestBlockNum s with
                                 | Some n => Height (n + 1)
                                 | None => fromBlock s
                                 end;
                    toBlock := toBlock s;
                    canceled := canceled s; latestBlockNum := latestBlockNum s;
                    isFirstFetch := isFirstFetch s; fetchToLatest := fetchToLatest s;
                    promiseCancel := promiseCancel s; suspended := suspended s |} in
      (s', delivered ++ next)
    end
  | _, _ => (s, [])
  end.

(** [onLog(fn, opts)]: the set-up, and [loop()] up to its first [await]. *)
Definition onLog (opts : IGetLogsRequest) : Subscription * list Action :=
  let fromBlock := orLatest (EthRPC.fromBlock opts) in
  let toBlock := orLatest (EthRPC.toBlock opts) in
  loopHead {| opts := opts; fromBlock := fromBlock; toBlock := toBlock;
              canceled := false; latestBlockNum := None;
              isFirstFetch := true;
              fetchToLatest := negb (isNumber fromBlock);
              promiseCancel := false; suspended := AwaitBlockNumber |}.

(** The loop against a sequence of inputs, with everything it did. *)
Fixpoint run (s : Subscription) (inputs : list Input)
    : Subscription * list Action :=
  match inputs with
  | [] => (s, [])
  | i :: inputs =>
    let (s', now) := step s i in
    let (s'', later) := run s' inputs in
    (s'', now ++ later)
  end.

(** A subscription from its creation. *)
Definition subscribe (opts : IGetLogsRequest) (inputs : list Input)
    : Subscription * list Action :=
  let (s, first) := onLog opts in
  let (s', later) := run s inputs in
  (s', first ++ later).

End Loop.


(** The loop has left [while (!canceled)]. *)
Definition returned (s : Subscription) : bool :=
  match suspended s with Returned => true | _ => false end.


(** The [toBlock] of every request for logs among [actions]. *)
Definition fetchedTo (actions : list Action) : list (option typeBlockTags) :=
  omap (λ a, match a with GetLogs req => Some (EthRPC.toBlock req) | _ => None end) actions.

(** The entries handed to the consumer among [actions], in order. *)
Definition delivered (actions : list Action) : list IContractEventLog :=
  omap (λ a, match a with Deliver e => Some e | _ => None end) actions.

(** The caller's window: both ends given as heights. *)
Definition window (f T : Z) (address : option string)
    (topics : option (list string)) : IGetLogsRequest :=
  {| EthRPC.fromBlock := Some (Height f); EthRPC.toBlock := Some (Height T);
     EthRPC.address := address; EthRPC.topics := topics |}.

(** No end of the window given. *)
Definition following (address : option string)
    (topics : option (list string)) : IGetLogsRequest :=
  {| EthRPC.fromBlock := None; EthRPC.toBlock := None;
     EthRPC.address := address; EthRPC.topics := topics |}.

(** The loop never moves [toBlock] off the height [T]. *)
Definition bounded (T : Z) (s : Subscription) : Prop :=
  fetchToLatest s = false ∧ toBlock s = Height T ∧ isNumber (fromBlock s) = true.


End OnLog.

(* ===================================================================== *)
(** * Contract.ts: [class Contract]                                       *)
(* ===================================================================== *)

Module Contract.
Import Js EthRPC EthjsAbi Async Abi ContractTypes.

Section Contract.

(** The codec behind [abi.ts]. *)
Variable ethjs : IETHABI.
(** [this.rpc]. *)
Variable rpc : Node.
(** [this.methodMap.findMethod], of MethodMap.ts: the definition resolved
    for a name and arguments, or [undefined]. *)
Variable findMethod : string → list JsValue → option IABIMethod.
(** [this.address]. *)
Variable address : string.
(** [this._logDecoder]. *)
Variable logDecoder : ContractLogDecoder.

Definition encodeParams (method : string) (args : list JsValue) : Async string :=
  match findMethod method args with
  | None => throw ("Unknown method to call: " +:+ method)
  | Some methodABI => encodeInputs ethjs methodABI args
  end.

(** [{...opts, to: this.address, data: calldata}]. *)
Definition callRequest (opts : IContractCallRequestOptions) (calldata : string)
    : ICallRequest :=
  {| call_from := copt_from opts; call_gasLimit := copt_gasLimit opts;
     call_gasPrice := copt_gasPrice opts; call_value := copt_value opts;
     call_blockNumber := copt_blockNumber opts;
     call_to := address; call_data := calldata |}.

Definition sendRequest (opts : IContractSendRequestOptions) (calldata : string)
    : ISendTransactionRequest :=
  {| send_value := sopt_value opts; send_gasLimit := sopt_gasLimit opts;
     send_gasPrice := sopt_gasPrice opts; send_from := sopt_from opts;
     send_nonce := sopt_nonce opts;
     send_to := address; send_data := calldata |}.

Definition rawCall (method : string) (args : list JsValue)
    (opts : IContractCallRequestOptions) : Async string :=
  calldata ← encodeParams method args;
  let req := callRequest opts calldata in
  perform (RpcCall req) (Fulfilled (node_call rpc req)).

Definition call (method : string) (args : list JsValue)
    (opts : IContractCallRequestOptions) : Async (list JsValue) :=
  output ← rawCall method args opts;
  if String.eqb output "" then mret []
  else
    match findMethod method args with
    | Some methodABI => decodeOutputs ethjs methodABI output
    | None => throw "Cannot read property 'outputs' of undefined"
    end.

Definition rawSend (method : string) (args : list JsValue)
    (opts : IContractSendRequestOptions) : Async ISendTransactionResult :=
  match findMethod method args with
  | None => throw ("Unknown method to send: " +:+ method)
  | Some methodABI =>
    if constant methodABI then
      throw ("Cannot send to a constant method: " +:+ method)
    else
      calldata ← encodeInputs ethjs methodABI args;
      let req := sendRequest opts calldata in
      perform (RpcSendTransaction req) (Fulfilled (node_sendTransaction rpc req))
  end.

Definition send (method : string) (args : list JsValue)
    (opts : IContractSendRequestOptions) : Async IContractSendResult :=
  match findMethod method args with
  | None => throw ("Unknown method to send: " +:+ method)
  | Some methodABI =>
    if constant methodABI then
      throw ("cannot send to a constant method: " +:+ method)
    else
      calldata ← encodeInputs ethjs methodABI args;
      let req := sendRequest opts calldata in
      sentResult ← perform (RpcSendTransaction req)
                           (Fulfilled (node_sendTransaction rpc req));
      let txid := txid sentResult in
      transaction ← perform (RpcGetTransaction txid)
                            (Fulfilled (node_getTransaction rpc txid));
      mret {| sent_transaction := transaction; sent_txid := txid;
              sent_method := method |}
  end.

(** [{...req, address: this.address}]. *)
Definition withAddress (req : IGetLogsRequest) : IGetLogsRequest :=
  {| fromBlock := fromBlock req; toBlock := toBlock req;
     EthRPC.address := Some address; topics := topics req |}.

Definition getLogs (req : IGetLogsRequest) : Async (list IContractEventLog) :=
  result ← perform (RpcGetLogs (withAddress req))
                   (Fulfilled (node_getLogs rpc (withAddress req)));
  settle (decodeEntries logDecoder result).

(** [{fromBlock: 0, toBlock: "latest", ...req}]. *)
Definition logs (req : IGetLogsRequest) : Async (list IContractEventLog) :=
  getLogs {| fromBlock := Some (default (Height 0) (fromBlock req));
             toBlock := Some (default Latest (toBlock req));
             EthRPC.address := EthRPC.address req; topics := topics req |}.

(** [onLog(fn, opts)], lines 571-624: the loop over [this.getLogs], with no
    [promiseCancel]; the subscription from the call on, against the inputs
    that follow. *)
Definition subscribe (fn : IContractEventLog → bool) (opts : IGetLogsRequest)
    (inputs : list OnLog.Input) : OnLog.Subscription * list OnLog.Action :=
  OnLog.subscribe withAddress (decodeEntries logDecoder) false fn opts inputs.

End Contract.

End Contract.

(* ===================================================================== *)
(** * EventListener.ts                                                    *)
(* ===================================================================== *)

Module EventListener.
Import Js EthRPC EthjsAbi Async Abi ContractTypes.

Section EventListener.

(** [this.rpc] and [this.logDecoder]. *)
Variable rpc : Node.
Variable logDecoder : ContractLogDecoder.

Definition getLogs (req : IGetLogsRequest) : Async (list IContractEventLog) :=
  result ← perform (RpcGetLogs req) (Fulfilled (node_getLogs rpc req));
  settle (decodeEntries logDecoder result).

(** [onLog(fn, opts)], lines 706-768: the loop over [this.getLogs], keeping
    [logPromise.cancel] for the cancel function; the subscription from the
    call on, against the inputs that follow. *)
Definition subscribe (fn : IContractEventLog → bool) (opts : IGetLogsRequest)
    (inputs : list OnLog.Input) : OnLog.Subscription * list OnLog.Action :=
  OnLog.subscribe id (decodeEntries logDecoder) true fn opts inputs.

End EventListener.

End EventListener.

(* ===================================================================== *)
(** * Contract.ts: first return values, receipts and the event emitter    *)
(* ===================================================================== *)

Module ContractApi.
Import Js EthRPC EthjsAbi Async Abi ContractTypes.
#[local] Open Scope Z_scope.

(** [ITransactionReceipt]: the receipt of the node without its [logs], the
    decoded logs in their place and the raw ones under [rawlogs].
    [decode(rawLog)!] asserts a type and checks nothing: a raw log the
    decoder finds no event for leaves [null] among the decoded logs. *)
Record ITransactionReceipt := {
  receipt_transactionHash : string;
  receipt_blockNumber : Z;
  receipt_status : option Z;
  receipt_logs : list (option IParsedLog);
  receipt_rawlogs : list ILogEntry
}.

(** A [Date], by the milliseconds [getTime()] returns. *)
Record Date := {
  getTime : Z
}.

(** How [Contract.confirm] stands after a finite number of polls. *)
Inductive Confirmation :=
| Confirmed (receipt : ITransactionReceipt)
| Failed (message : string)
| Waiting.

(** [(entry.event && entry.event._eventName) || "?"]: the event's name, or
    ["?"] where the left operand is falsy, that is for a null event and for
    an empty name. *)
Definition emitKey (entry : IContractEventLog) : string :=
  match event entry with
  | Some parsed =>
    if String.eqb (_eventName parsed) "" then "?" else _eventName parsed
  | None => "?"
  end.

(** [emitter.emit(key, entry)] for every entry handed to the callback of
    [logEmitter] / [emitter], in order. *)
Definition emitted (actions : list OnLog.Action)
    : list (string * IContractEventLog) :=
  (λ entry, (emitKey entry, entry)) <$> OnLog.delivered actions.

Section Contract.

Variable ethjs : IETHABI.
Variable rpc : Node.
Variable findMethod : string → list JsValue → option IABIMethod.
Variable address : string.
Variable logDecoder : ContractLogDecoder.
(** [toNumber] of the codec's big numbers (bn.js): the number, or its throw
    for a value a JavaScript number cannot hold. *)
Variable toNumber : Z → Settled Z.
(** [TRANSACTION_STATUS.FAILED], an enum member of EthRPC.ts. *)
Variable FAILED : Z.
(** What the node answers to [rpc.getTransactionReceipt]. *)
Variable getTransactionReceipt : string → option IGetTransactionReceiptResult.

(** [return(method, args, opts)]: [result[0]], [undefined] for an empty
    array. *)
Definition return_ (method : string) (args : list JsValue)
    (opts : IContractCallRequestOptions) : Async JsValue :=
  result ← Contract.call ethjs rpc findMethod address method args opts;
  mret (default JUndefined (head result)).

(** [returnNumber]: reading [val.toNumber] off [undefined] is a TypeError;
    of the values of the API only a big number has a [toNumber] method. *)
Definition returnNumber (method : string) (args : list JsValue)
    (opts : IContractCallRequestOptions) : Async Z :=
  result ← Contract.call ethjs rpc findMethod address method args opts;
  match default JUndefined (head result) with
  | JUndefined => throw "Cannot read property 'toNumber' of undefined"
  | JBigNumber n => settle (toNumber n)
  | _ => throw "Cannot convert result to a number"
  end.

(** [returnDate]: [new Date(result * 1000)] for a [result] of type
    ["number"]. *)
Definition returnDate (method : string) (args : list JsValue)
    (opts : IContractCallRequestOptions) : Async Date :=
  result ← return_ method args opts;
  match result with
  | JNumber n => mret {| getTime := n * 1000 |}
  | _ =>
    throw "Cannot convert return value to Date. Expect return value to be a number."
  end.

(** [returnAs(converter, method, args, opts)]. *)
Definition returnAs {T} (converter : JsValue → Settled T) (method : string)
    (args : list JsValue) (opts : IContractCallRequestOptions) : Async T :=
  value ← return_ method args opts;
  settle (converter value).

(** [_makeSendTxReceipt(receipt)]: it throws what [decode] throws on one
    of the receipt's logs. *)
Definition _makeSendTxReceipt (receipt : IGetTransactionReceiptResult)
    : Settled ITransactionReceipt :=
  let rawlogs := EthRPC.logs receipt in
  match mapSettled (decode logDecoder) rawlogs with
  | Threw message => Threw message
  | Fulfilled logs =>
    Fulfilled {| receipt_transactionHash := transactionHash receipt;
                 receipt_blockNumber := blockNumber receipt;
                 receipt_status := status receipt;
                 receipt_logs := logs;
                 receipt_rawlogs := rawlogs |}
  end.

(** [receipt(txid)]: [null] while the node has no receipt. *)
Definition receipt (txid : string) : Settled (option ITransactionReceipt) :=
  match getTransactionReceipt txid with
  | None => Fulfilled None
  | Some receipt =>
    match _makeSendTxReceipt receipt with
    | Threw message => Threw message
    | Fulfilled decoded => Fulfilled (Some decoded)
    end
  end.

(** The handler [confirm] registers through [txrp.onConfirm], over the
    invocations of the tracker's handlers in order: it decodes the receipt
    and calls [onConfirm] with it.  What it throws leaves [emit] and the
    tracker's loop with it: the calls of [onConfirm] made until then, and
    the error thrown, if any. *)
Fixpoint notify (emits : list TxReceiptPromise.ConfirmEmit)
    : list (IGetTransactionResult * ITransactionReceipt) * option string :=
  match emits with
  | [] => ([], None)
  | e :: emits =>
    match _makeSendTxReceipt (TxReceiptPromise.emit_receipt e) with
    | Threw message => ([], Some message)
    | Fulfilled sendTxReceipt =>
      let (calls, thrown) := notify emits in
      ((TxReceiptPromise.emit_tx e, sendTxReceipt) :: calls, thrown)
    end
  end.

(** [confirm(txid, confirm, onConfirm)]: a [TxReceiptPromise] for [txid],
    with the handler wrapped and registered where one is given
    ([onConfirm] tells whether), and [txrp.confirm(confirm)] awaited with
    no options; [tx] and [polls] are the node's answers as for
    [TxReceiptPromise.confirm].  The invocations of [onConfirm] in order,
    and how the call stands: a throw of the registered handler rejects the
    tracker's [confirm] where it happens, and so this call; the receipt the
    tracker resolves with is decoded, which may throw as well. *)
Definition confirm (confirm : option Z) (onConfirm : bool)
    (tx : option IGetTransactionResult)
    (polls : list (option IGetTransactionReceiptResult * Z))
    : list (IGetTransactionResult * ITransactionReceipt) * Confirmation :=
  let (emits, outcome) :=
    TxReceiptPromise.confirm FAILED confirm
      {| TxReceiptPromise.pollInterval := None |} tx polls in
  let (calls, thrown) := if onConfirm then notify emits else ([], None) in
  (calls,
   match thrown with
   | Some message => Failed message
   | None =>
     match outcome with
     | TxReceiptPromise.Resolved receipt =>
       match _makeSendTxReceipt receipt with
       | Threw message => Failed message
       | Fulfilled decoded => Confirmed decoded
       end
     | TxReceiptPromise.Rejected message => Failed message
     | TxReceiptPromise.Polling _ => Waiting
     end
   end).



End Contract.

Definition confirmed (c : Confirmation) : option ITransactionReceipt :=
  match c with Confirmed r => Some r | _ => None end.

End ContractApi.

(* ===================================================================== *)
(** * test.ts: [assertThrow]                                              *)
(* ===================================================================== *)

Module Testing.
Import Js.
#[local] Open Scope Z_scope.

(** How [await fn()] ends: the promise is fulfilled, or it is rejected with
    a value. *)
Inductive Ran :=
| Returns
| Throws (err : JsValue).

(** The truthiness of a value. *)
Definition truthy (v : JsValue) : bool :=
  match v with
  | JUndefined => false
  | JBool b => b
  | JNumber n => negb (n =? 0)
  | JString s => negb (String.eqb s "")
  | JBigNumber _ | JArray _ => true
  end.

(** [v != null]. *)
Definition notNull (v : JsValue) : bool :=
  match v with JUndefined => false | _ => true end.

(** [assertThrow(fn, msg, report)]: the values [report] is called with
    ([report] tells whether one is given), and how the assertion of chai
    ends. *)
Definition assertThrow (fn : Ran) (msg : option string) (report : bool)
    : list JsValue * Settled unit :=
  let errorThrown := match fn with Throws err => Some err | Returns => None end in
  (match errorThrown with
   | Some err => if truthy err && report then [err] else []
   | None => []
   end,
   if match errorThrown with Some err => notNull err | None => false end
   then Fulfilled ()
   else Threw (match msg with
               | Some m =>
                 if String.eqb m "" then "Expects error to be thrown"
                 else "Expects error to be thrown: " +:+ m
               | None => "Expects error to be thrown"
               end)).

End Testing.

(* ===================================================================== *)
(** * What a run shows of the code                                        *)
(* ===================================================================== *)

Module Trace.
Import Js EthRPC EthjsAbi Async ContractTypes OnLog.
#[local] Open Scope Z_scope.

(** A request sent to the node. *)
Definition reachesNode (e : Effect) : bool :=
  match e with
  | RpcCall _ | RpcSendTransaction _ | RpcGetTransaction _ | RpcGetLogs _ => true
  | AbiEncodeMethod _ _ | AbiDecodeParams _ _ => false
  end.

(** The requests for logs among [actions], in order. *)
Definition fetches (actions : list Action) : list IGetLogsRequest :=
  omap (λ a, match a with GetLogs req => Some req | _ => None end) actions.

Definition asksBlockNumber (a : Action) : bool :=
  match a with GetBlockNumber => true | _ => false end.

Definition sleeps (a : Action) : bool :=
  match a with SleepFor _ => true | _ => false end.

(** Successive windows: each from a height to a height; the first is not
    empty; every later one starts one block past the end of the one before
    and ends above its start. *)
Fixpoint adjacent (last : option Z) (requests : list IGetLogsRequest) : bool :=
  match requests with
  | [] => true
  | req :: requests =>
    match EthRPC.fromBlock req, EthRPC.toBlock req with
    | Some (Height a), Some (Height b) =>
      match last with
      | None => a <=? b
      | Some l => (a =? l + 1) && (a <? b)
      end && adjacent (Some b) requests
    | _, _ => false
    end
  end.

(** The input the loop is suspended for. *)
Definition awaited (s : Subscription) (i : Input) : bool :=
  match suspended s, i with
  | AwaitBlockNumber, BlockNumber _ => true
  | AwaitSleep, Woke => true
  | AwaitLogs, Logs _ => true
  | _, _ => false
  end.

(** The variables of a loop that follows the head, between its fetches:
    [last] is the end of the latest window it has asked for, [None] before
    the first. *)
Definition chained (last : option Z) (s : Subscription) : Prop :=
  fetchToLatest s = true
  ∧ match suspended s with
    | AwaitLogs => isFirstFetch s = false ∧ latestBlockNum s = last ∧ is_Some last
    | Thrown _ => True
    | _ =>
      match last with
      | None => isFirstFetch s = true ∧ isNumber (fromBlock s) = false
      | Some l => isFirstFetch s = false ∧ fromBlock s = Height (l + 1)
      end
    end.

(** A window that ends at the height [T] is used up: the first fetch has
    been made, none is in flight, and [fromBlock] has reached [T]; or the
    loop has thrown. *)
Definition exhausted (T : Z) (s : Subscription) : Prop :=
  match suspended s with
  | AwaitLogs => False
  | Thrown _ => True
  | _ => isFirstFetch s = false ∧ ∃ f, fromBlock s = Height f ∧ T ≤ f
  end.

(** While a fetch is in flight the first fetch has been made. *)
Definition fetching (s : Subscription) : Prop :=
  suspended s = AwaitLogs → isFirstFetch s = false.

(** What is left for a cancelled loop to do, by where it is suspended: it
    does not ask for the block number; a fetch may follow only while the
    block number is awaited; one answer may still be delivered. *)
Definition winding (entries : list ILogEntry → Settled (list IContractEventLog))
    (s : Subscription) (actions : list Action) : Prop :=
  existsb asksBlockNumber actions = false
  ∧ match suspended s with
    | AwaitBlockNumber =>
      (length (fetches actions) ≤ 1)%nat
      ∧ (delivered actions = []
         ∨ ∃ result, entries result = Fulfilled (delivered actions))
    | AwaitLogs =>
      fetches actions = []
      ∧ (delivered actions = []
         ∨ ∃ result, entries result = Fulfilled (delivered actions))
    | AwaitSleep | Returned | Thrown _ =>
      fetches actions = [] ∧ delivered actions = []
    end.

End Trace.

(* ===================================================================== *)
(** * Scenarios: transactions, contracts and nodes to run the code on     *)
(* ===================================================================== *)

Module Scenarios.
Import Js EthRPC EthjsAbi Abi ContractTypes.
#[local] Open Scope Z_scope.

(** A transaction, and its receipt mined at a height with a status. *)
Definition tx0 : IGetTransactionResult :=
  {| tx_hash := "0xabc"; tx_blockNumber := Some 100 |}.

Definition receiptAt (height : Z) (status : option Z) : IGetTransactionReceiptResult :=
  {| transactionHash := "0xabc"; blockNumber := height; status := status; logs := [] |}.

(** The answers of a node for a receipt that stays where it is while the
    chain head takes the given heights. *)
Definition observed (receipt : IGetTransactionReceiptResult) (heads : list Z)
    : list (option IGetTransactionReceiptResult * Z) :=
  (λ head, (Some receipt, head)) <$> heads.

(** The answers of a node for a transaction that is still pending. *)
Definition pending (heads : list Z)
    : list (option IGetTransactionReceiptResult * Z) :=
  (λ head, (None, head)) <$> heads.

(** A method definition by its name and parameter types. *)
Definition method (name : string) (types : list string) : IABIMethod :=
  {| name := name; type := "function";
     inputs := (λ t, {| param_name := ""; param_type := t |}) <$> types;
     outputs := [{| param_name := ""; param_type := "string" |}];
     constant := true |}.

(** The overloads of test/contracts/MethodOverloading.sol. *)
Definition overloads : list IABIMethod :=
  [ method "foo" [];
    method "foo" ["uint256"];
    method "foo" ["string"];
    method "foo" ["uint256"; "uint256"];
    method "foo" ["int256"; "int256"];
    method "foo" ["int256"; "int256"; "int256"] ].

(** A contract with a read-only [getFoo] and a state-changing [setFoo], a
    codec that encodes a call as the method's name, decodes an output as
    one string and knows the event of topic ["0xf00"], and a node that
    answers every call with [answer]. *)
Definition getFoo : IABIMethod :=
  {| name := "getFoo"; type := "function"; inputs := [];
     outputs := [{| param_name := ""; param_type := "uint256" |}];
     constant := true |}.

Definition setFoo : IABIMethod :=
  {| name := "setFoo"; type := "function";
     inputs := [{| param_name := "v"; param_type := "uint256" |}];
     outputs := []; constant := false |}.

Definition fooMethods (method : string) (args : list JsValue) : option IABIMethod :=
  if String.eqb method "getFoo" then Some getFoo
  else if String.eqb method "setFoo" then Some setFoo
  else None.

Definition fooEvent : IParsedLog := {| _eventName := "FooEvent"; fields := [] |}.

Definition fooCodec : IETHABI :=
  {| encodeMethod := λ method args, Fulfilled (name method);
     decodeParams := λ names types data, Fulfilled {[ 0%nat := JString data ]};
     logDecoder := λ abi numbered items,
       Fulfilled (omap (λ item, if bool_decide (log_topics item = ["0xf00"])
                                then Some fooEvent else None) items) |}.

Definition fooNode (answer : string) : Node :=
  {| node_call := λ req, answer;
     node_sendTransaction := λ req, {| txid := "0x01" |};
     node_getTransaction := λ txid, None;
     node_getLogs := λ req, [] |}.

Definition noSendOptions : IContractSendRequestOptions :=
  {| sopt_value := None; sopt_gasLimit := None; sopt_gasPrice := None;
     sopt_from := None; sopt_nonce := None |}.

Definition noCallOptions : IContractCallRequestOptions :=
  {| copt_from := None; copt_gasLimit := None; copt_gasPrice := None;
     copt_value := None; copt_blockNumber := None |}.

Definition rawLog (topic : string) : ILogEntry :=
  {| log_address := "0xc0"; log_topics := [topic]; log_data := "0x";
     log_blockNumber := 5; log_transactionHash := "0x01" |}.

(** A listener and a contract at ["0xc0"] sharing the decoder that knows
    the event of topic ["0xf00"]. *)
Definition decoder : ContractLogDecoder :=
  newContractLogDecoder fooCodec [].

Definition fooLog : ILogEntry := rawLog "0xf00".

Definition bazLog : ILogEntry := rawLog "0xbaz".

(** A consumer that never cancels, and one that cancels at every entry it
    is handed, as the tests do to unsubscribe. *)
Definition listening (e : IContractEventLog) : bool := false.

Definition unsubscribing (e : IContractEventLog) : bool := true.

Definition fooEntry : IContractEventLog :=
  {| entry := fooLog; event := Some fooEvent |}.

Definition bazEntry : IContractEventLog :=
  {| entry := bazLog; event := None |}.

Definition fetch (address : option string) (f T : typeBlockTags) : OnLog.Action :=
  OnLog.GetLogs {| EthRPC.fromBlock := Some f; EthRPC.toBlock := Some T;
             EthRPC.address := address; EthRPC.topics := None |}.

(** A codec as [fooCodec] that also knows the event of topic ["0xba5"],
    which carries a value: as the decoder of ethjs-abi does for a log of a
    known event that does not decode, it throws on a log of that topic
    with no data.  A decoder over it, a log it throws on, and a node that
    answers every request for logs with a given batch. *)
Definition barEvent : IParsedLog := {| _eventName := "BarEvent"; fields := [] |}.

Definition strictCodec : IETHABI :=
  {| encodeMethod := encodeMethod fooCodec;
     decodeParams := decodeParams fooCodec;
     logDecoder := λ abi numbered items,
       match mapSettled
               (λ item,
                  if bool_decide (log_topics item = ["0xf00"])
                  then Fulfilled [fooEvent]
                  else if bool_decide (log_topics item = ["0xba5"]) then
                    if String.eqb (log_data item) "0x"
                    then Threw "invalid data for BarEvent"
                    else Fulfilled [barEvent]
                  else Fulfilled []) items with
       | Threw message => Threw message
       | Fulfilled parsed => Fulfilled (concat parsed)
       end |}.

Definition strictDecoder : ContractLogDecoder :=
  newContractLogDecoder strictCodec [].

Definition barLog : ILogEntry := rawLog "0xba5".

Definition logNode (batch : list ILogEntry) : Node :=
  {| node_call := λ req, EmptyString;
     node_sendTransaction := λ req, {| txid := "0x01" |};
     node_getTransaction := λ txid, None;
     node_getLogs := λ req, batch |}.

(** A receipt mined at block 100 with status 1 and the given logs. *)
Definition receiptLogging (logs : list ILogEntry) : IGetTransactionReceiptResult :=
  {| transactionHash := "0xabc"; blockNumber := 100; status := Some 1;
     logs := logs |}.

(** A codec that refuses to encode whatever it is given. *)
Definition refusingCodec : IETHABI :=
  {| encodeMethod := λ method args, Threw "invalid argument";
     decodeParams := decodeParams fooCodec;
     logDecoder := logDecoder fooCodec |}.

End Scenarios.

(* ===================================================================== *)
(** * The confirmation tracker                                            *)
(* ===================================================================== *)

Module ConfirmationTracker.
Import Js EthRPC TxReceiptPromise Scenarios.
#[local] Open Scope Z_scope.

Section Facts.

Variable FAILED : Z.

Abbreviation poll := (TxReceiptPromise.poll FAILED).
Abbreviation confirm_loop := (TxReceiptPromise.confirm_loop FAILED).

Lemma hasTransactionError_status receipt :
  hasTransactionError FAILED receipt = true ↔ status receipt = Some FAILED.
Proof.
  unfold hasTransactionError. destruct (status receipt) as [s|]; [|done].
  rewrite Z.eqb_eq. split; [intros ->; done | by intros [= ->]].
Qed.

Lemma poll_null confirm ms tx prev head :
  poll confirm ms tx prev None head = Sleep [] ms prev.
Proof. reflexivity. Qed.

Lemma poll_throws confirm ms tx prev receipt head message :
  poll confirm ms tx prev receipt head = Throw message ↔
  ∃ r, receipt = Some r ∧ status r = Some FAILED
       ∧ message = "Transaction process error".
Proof.
  unfold TxReceiptPromise.poll. destruct receipt as [r|].
  - destruct (hasTransactionError FAILED r) eqn:E.
    + apply hasTransactionError_status in E. split.
      * intros [= <-]. eauto.
      * intros (r' & [= <-] & _ & ->). done.
    + split.
      * repeat case_match; discriminate.
      * intros (r' & [= <-] & Hs & _).
        apply hasTransactionError_status in Hs. congruence.
  - split; [discriminate | intros (r & ? & _); discriminate].
Qed.

(** While the depth is short of the target, the handlers are fired as many
    times as the depth exceeds the remembered counter, and it is this
    difference the loop remembers. *)
Lemma poll_waits confirm ms tx prev r head :
  hasTransactionError FAILED r = false →
  0 < head - blockNumber r < confirm →
  head - blockNumber r ≠ prev →
  poll confirm ms tx prev (Some r) head =
    Sleep (emitTimes (head - blockNumber r - prev) tx r) ms
          (head - blockNumber r - prev).
Proof.
  intros Hok Hcount Hprev. unfold TxReceiptPromise.poll. rewrite Hok. cbn zeta.
  destruct (Z.eqb_spec (head - blockNumber r) 0); [lia|]. cbn [andb].
  destruct (Z.ltb_spec (head - blockNumber r) confirm); [|lia].
  destruct (Z.eqb_spec (head - blockNumber r) prev); [done|]. reflexivity.
Qed.

Lemma poll_returns confirm ms tx prev r head :
  hasTransactionError FAILED r = false →
  poll confirm ms tx prev (Some r) head = Return r ↔
  confirm ≤ head - blockNumber r ∧ (head = blockNumber r → confirm ≤ 0).
Proof.
  intros Hok. unfold TxReceiptPromise.poll. rewrite Hok. cbn zeta.
  destruct (Z.eqb_spec (head - blockNumber r) 0) as [E0|E0];
    destruct (Z.ltb_spec 0 confirm) as [Ec|Ec]; cbn [andb];
    destruct (Z.ltb_spec (head - blockNumber r) confirm) as [El|El];
    try destruct (Z.eqb_spec (head - blockNumber r) prev);
    cbn [negb]; split; try discriminate; try done; try lia.
Qed.

Lemma confirm_loop_pending confirm ms tx prev heads :
  confirm_loop confirm ms tx prev (pending heads) = ([], Polling prev).
Proof.
  induction heads as [|head heads IH]; [done|].
  cbn [pending fmap list_fmap TxReceiptPromise.confirm_loop]. rewrite poll_null.
  unfold pending in IH. by rewrite IH.
Qed.

Lemma confirm_loop_app_pending confirm ms tx prev heads polls :
  confirm_loop confirm ms tx prev (pending heads ++ polls) =
  confirm_loop confirm ms tx prev polls.
Proof.
  induction heads as [|head heads IH]; [done|].
  cbn [pending fmap list_fmap app TxReceiptPromise.confirm_loop].
  rewrite poll_null. unfold pending in IH. rewrite IH.
  by destruct (confirm_loop _ _ _ _ polls).
Qed.

Lemma confirm_loop_rejected confirm ms tx polls : ∀ prev message,
  rejected (confirm_loop confirm ms tx prev polls).2 = Some message →
  message = "Transaction process error"
  ∧ ∃ r head, (Some r, head) ∈ polls ∧ status r = Some FAILED.
Proof.
  induction polls as [|[receipt head] polls IH]; intros prev message; [done|].
  cbn [TxReceiptPromise.confirm_loop].
  destruct (poll confirm ms tx prev receipt head)
    as [emitted ms' prev'|m|r] eqn:E.
  - destruct (confirm_loop confirm ms tx prev' polls) as [later o] eqn:El.
    cbn [snd]. intros Hrej.
    specialize (IH prev' message). rewrite El in IH.
    destruct (IH Hrej) as (-> & r & h & Hin & Hs).
    split; [done|]. exists r, h. split; [by apply list_elem_of_further | done].
  - cbn. intros [= <-]. apply poll_throws in E as (r & -> & Hs & ->).
    split; [done|]. exists r, head. split; [apply list_elem_of_here | done].
  - done.
Qed.

Lemma poll_return_inv confirm ms tx prev receipt head r :
  poll confirm ms tx prev receipt head = Return r →
  receipt = Some r ∧ hasTransactionError FAILED r = false
  ∧ confirm ≤ head - blockNumber r ∧ (head = blockNumber r → confirm ≤ 0).
Proof.
  intros E. destruct receipt as [r'|]; [|done].
  destruct (hasTransactionError FAILED r') eqn:Hok.
  { unfold TxReceiptPromise.poll in E. by rewrite Hok in E. }
  assert (r' = r) as ->.
  { unfold TxReceiptPromise.poll in E. rewrite Hok in E.
    repeat case_match; congruence. }
  split; [done|]. split; [done|]. by apply (poll_returns confirm ms tx prev).
Qed.

Lemma confirm_loop_not_past confirm ms tx r polls : ∀ prev,
  1 ≤ confirm →
  Forall (λ p, (p.1 = None ∨ p.1 = Some r) ∧ p.2 ≤ blockNumber r) polls →
  resolved (confirm_loop confirm ms tx prev polls).2 = None.
Proof.
  induction polls as [|[receipt head] polls IH]; intros prev Hc Hall; [done|].
  apply Forall_cons in Hall as [[Hr Hh] Hall]. cbn [fst snd] in Hr, Hh.
  cbn [TxReceiptPromise.confirm_loop].
  destruct (poll confirm ms tx prev receipt head)
    as [emitted ms' prev'|m|r'] eqn:E.
  - specialize (IH prev' Hc Hall).
    by destruct (confirm_loop confirm ms tx prev' polls).
  - done.
  - apply poll_return_inv in E as (-> & _ & Hdepth & _).
    destruct Hr as [Hr|Hr]; [done|]. injection Hr as ->. lia.
Qed.

(** Claim C1.  The progress callback does not fire once per newly observed
    confirmation.  A receipt mined at block 100 is polled with target 10
    while the head is at 101, 102 and 103: the confirmation count is 1, 2
    and 3, one more at each poll.  The first two polls fire one callback
    each and leave 1 in [prevConfirmationCounter] (the loop stores the
    difference it has just computed, not the counter); the third poll then
    fires two callbacks for one new confirmation, four in all for three
    confirmations.  The jump from 1 to 4 of the claim does fire three. *)
Theorem confirm_progress_overcounts (ms : Z) :
  let r := receiptAt 100 None in
  confirm_loop 10 ms tx0 0 (observed r [101; 102]) = (emitTimes 2 tx0 r, Polling 1)
  ∧ poll 10 ms tx0 1 (Some r) 103 = Sleep (emitTimes 2 tx0 r) ms 2
  ∧ confirm_loop 10 ms tx0 0 (observed r [101; 102; 103])
    = (emitTimes 4 tx0 r, Polling 2)
  ∧ poll 10 ms tx0 1 (Some r) 104 = Sleep (emitTimes 3 tx0 r) ms 3.
Proof. cbv zeta. repeat split. Qed.

(** Claim C5.  For a receipt mined at height H: with a target of at least
    1, [confirm] does not resolve however often it polls while the head is
    at H (or below), and for a receipt that is not a failed one a poll
    resolves exactly when the head has reached H plus the target, so only
    past H; with target 0, [confirm] is settled by the first poll that sees
    the receipt, the head at H or wherever above: it resolves with the
    receipt, having fired no callback, or throws for a failed one. *)
Theorem confirm_fresh_receipt (confirm ms : Z) opts tx r :
  (1 ≤ confirm →
     (∀ prev polls,
        Forall (λ p, (p.1 = None ∨ p.1 = Some r) ∧ p.2 ≤ blockNumber r) polls →
        resolved (confirm_loop confirm ms tx prev polls).2 = None)
     ∧ (hasTransactionError FAILED r = false →
        ∀ prev head,
          poll confirm ms tx prev (Some r) head = Return r ↔
          blockNumber r + confirm ≤ head))
  ∧ (∀ heads head rest,
       blockNumber r ≤ head →
       TxReceiptPromise.confirm FAILED (Some 0) opts (Some tx)
         (pending heads ++ (Some r, head) :: rest)
       = ([], if hasTransactionError FAILED r
              then Rejected "Transaction process error"
              else Resolved r)).
Proof.
  split.
  - intros Hc. split.
    + intros prev polls Hall. by apply (confirm_loop_not_past confirm ms tx r).
    + intros Hok prev head. rewrite poll_returns by done. lia.
  - intros heads head rest Hh. unfold TxReceiptPromise.confirm.
    change (default 3 (Some 0)) with 0.
    rewrite confirm_loop_app_pending. cbn [TxReceiptPromise.confirm_loop].
    set (interval := default ETH_HALF_ESTIMATED_AVERAGE_BLOCK_TIME _).
    destruct (hasTransactionError FAILED r) eqn:Hok.
    + unfold TxReceiptPromise.poll. by rewrite Hok.
    + assert (poll 0 interval tx 0 (Some r) head = Return r) as ->; [|done].
      apply poll_returns; [done | lia].
Qed.

(** Claim C6.  A null receipt is not an error: the poll sleeps, fires
    nothing and keeps its state, however long the transaction stays
    pending, and the loop goes on with the next answer.  A poll throws
    exactly when the receipt carries the failure status, and [confirm] is
    rejected only then, with the transaction error and in place of a
    receipt. *)
Theorem null_receipt_not_error (confirm ms : Z) tx prev :
  (∀ head, poll confirm ms tx prev None head = Sleep [] ms prev)
  ∧ (∀ heads polls,
       confirm_loop confirm ms tx prev (pending heads) = ([], Polling prev)
       ∧ confirm_loop confirm ms tx prev (pending heads ++ polls)
         = confirm_loop confirm ms tx prev polls)
  ∧ (∀ receipt head message,
       poll confirm ms tx prev receipt head = Throw message ↔
       ∃ r, receipt = Some r ∧ status r = Some FAILED
            ∧ message = "Transaction process error")
  ∧ (∀ polls message,
       rejected (confirm_loop confirm ms tx prev polls).2 = Some message →
       message = "Transaction process error"
       ∧ ∃ r head, (Some r, head) ∈ polls ∧ status r = Some FAILED)
  ∧ (∀ heads r head rest,
       status r = Some FAILED →
       confirm_loop confirm ms tx prev (pending heads ++ (Some r, head) :: rest)
       = ([], Rejected "Transaction process error")).
Proof.
  split; [intros; apply poll_null|].
  split; [intros; split; [apply confirm_loop_pending | apply confirm_loop_app_pending]|].
  split; [intros; apply poll_throws|].
  split; [intros polls message; apply confirm_loop_rejected|].
  intros heads r head rest Hs. rewrite confirm_loop_app_pending.
  cbn [TxReceiptPromise.confirm_loop]. unfold TxReceiptPromise.poll.
  apply hasTransactionError_status in Hs. by rewrite Hs.
Qed.

Lemma hasTransactionError_not_failed receipt :
  status receipt ≠ Some FAILED → hasTransactionError FAILED receipt = false.
Proof.
  intros Hs. destruct (hasTransactionError FAILED receipt) eqn:E; [|done].
  by apply hasTransactionError_status in E.
Qed.

Lemma confirm_loop_resolved confirm ms tx polls : ∀ prev r,
  resolved (confirm_loop confirm ms tx prev polls).2 = Some r →
  ∃ head, (Some r, head) ∈ polls ∧ hasTransactionError FAILED r = false
          ∧ confirm ≤ head - blockNumber r.
Proof.
  induction polls as [|[receipt head] polls IH]; intros prev r; [done|].
  cbn [TxReceiptPromise.confirm_loop].
  destruct (poll confirm ms tx prev receipt head)
    as [emitted ms' prev'|m|r'] eqn:E.
  - specialize (IH prev' r).
    destruct (confirm_loop confirm ms tx prev' polls) as [later o].
    cbn [snd] in *. intros Hres. destruct (IH Hres) as (h & Hin & Hok & Hd).
    exists h. split; [by apply list_elem_of_further | done].
  - done.
  - cbn. intros [= <-]. apply poll_return_inv in E as (-> & Hok & Hd & _).
    exists head. split; [apply list_elem_of_here | done].
Qed.

Lemma confirm_loop_deep confirm ms tx before r head rest : ∀ prev,
  Forall (λ p, ∀ r', p.1 = Some r' → status r' ≠ Some FAILED) before →
  status r ≠ Some FAILED →
  confirm ≤ head - blockNumber r →
  ∃ r', resolved (confirm_loop confirm ms tx prev
                    (before ++ (Some r, head) :: rest)).2 = Some r'.
Proof.
  intros prev Hall Hok Hdeep. revert prev.
  induction before as [|[receipt h] before IH]; intros prev.
  - cbn [app TxReceiptPromise.confirm_loop].
    assert (poll confirm ms tx prev (Some r) head = Return r) as ->.
    { apply poll_returns; [by apply hasTransactionError_not_failed | lia]. }
    by exists r.
  - apply Forall_cons in Hall as [Hfirst Hall]. cbn [fst] in Hfirst.
    cbn [app TxReceiptPromise.confirm_loop].
    destruct (poll confirm ms tx prev receipt h)
      as [emitted ms' prev'|m|r'] eqn:E.
    + destruct (IH Hall prev') as [r' Hr'].
      destruct (confirm_loop confirm ms tx prev' _) as [later o].
      by exists r'.
    + apply poll_throws in E as (r' & -> & Hs & _). by destruct (Hfirst r').
    + by exists r'.
Qed.

Lemma confirm_loop_first_deep confirm ms tx before r head rest : ∀ prev,
  Forall (λ p, ∀ r', p.1 = Some r' →
               status r' ≠ Some FAILED ∧ p.2 - blockNumber r' < confirm) before →
  status r ≠ Some FAILED →
  confirm ≤ head - blockNumber r →
  resolved (confirm_loop confirm ms tx prev
              (before ++ (Some r, head) :: rest)).2 = Some r.
Proof.
  intros prev Hall Hok Hdeep. revert prev.
  induction before as [|[receipt h] before IH]; intros prev.
  - cbn [app TxReceiptPromise.confirm_loop].
    assert (poll confirm ms tx prev (Some r) head = Return r) as ->; [|done].
    apply poll_returns; [by apply hasTransactionError_not_failed | lia].
  - apply Forall_cons in Hall as [Hfirst Hall]. cbn [fst snd] in Hfirst.
    cbn [app TxReceiptPromise.confirm_loop].
    destruct (poll confirm ms tx prev receipt h)
      as [emitted ms' prev'|m|r'] eqn:E.
    + specialize (IH Hall prev').
      by destruct (confirm_loop confirm ms tx prev' _) as [later o].
    + apply poll_throws in E as (r' & -> & Hs & _).
      by destruct (Hfirst r' eq_refl).
    + apply poll_return_inv in E as (-> & _ & Hd & _).
      destruct (Hfirst r' eq_refl) as [_ Hshallow]. lia.
Qed.

Lemma emitTimes_succ n tx r :
  0 ≤ n → emitTimes 1 tx r ++ emitTimes n tx r = emitTimes (1 + n) tx r.
Proof.
  intros Hn. unfold emitTimes.
  replace (Z.to_nat (1 + n)) with (S (Z.to_nat n)) by lia. reflexivity.
Qed.

Lemma confirm_loop_stalled confirm ms tx r d n :
  status r ≠ Some FAILED → 0 < d < confirm →
  confirm_loop confirm ms tx d (observed r (replicate n (blockNumber r + d)))
  = (emitTimes (Z.of_nat n) tx r, Polling d).
Proof.
  intros Hok Hd. induction n as [|n IH]; [done|].
  cbn [replicate observed fmap list_fmap TxReceiptPromise.confirm_loop].
  assert (poll confirm ms tx d (Some r) (blockNumber r + d)
          = Sleep (emitTimes 1 tx r) ms d) as ->.
  { unfold TxReceiptPromise.poll.
    rewrite hasTransactionError_not_failed by done. cbn zeta.
    replace (blockNumber r + d - blockNumber r) with d by lia.
    destruct (Z.eqb_spec d 0); [lia|]. cbn [andb].
    destruct (Z.ltb_spec d confirm); [|lia].
    by rewrite Z.eqb_refl. }
  unfold observed in IH. rewrite IH.
  rewrite emitTimes_succ by lia. do 2 f_equal. lia.
Qed.

(** Property X1.  [confirm] resolves only with what it has seen: a receipt
    it resolves with was the node's answer to one of its polls, does not
    carry the failure status, and sat at least the target number of blocks
    (3 by default) below the head the same poll observed. *)
Theorem confirm_resolves_at_depth target opts tx polls r :
  resolved (TxReceiptPromise.confirm FAILED target opts tx polls).2 = Some r →
  ∃ head, (Some r, head) ∈ polls ∧ status r ≠ Some FAILED
          ∧ blockNumber r + default 3 target ≤ head.
Proof.
  unfold TxReceiptPromise.confirm. destruct tx as [tx|]; [|done].
  intros Hres. apply confirm_loop_resolved in Hres as (head & Hin & Hok & Hd).
  exists head. split; [done|]. split; [|lia].
  intros Hs. apply hasTransactionError_status in Hs. congruence.
Qed.

(** Property X2.  [confirm] does resolve: for a known transaction, once the
    node answers a poll with a receipt that is not a failed one and lies the
    target number of blocks (3 by default) below the head, the call has
    resolved, provided no earlier poll saw a failed receipt; and it resolves
    with this very receipt when no earlier poll saw a receipt that deep. *)
Theorem confirm_resolves_once_deep target opts tx before r head rest :
  Forall (λ p, ∀ r', p.1 = Some r' → status r' ≠ Some FAILED) before →
  status r ≠ Some FAILED →
  blockNumber r + default 3 target ≤ head →
  (∃ r', resolved (TxReceiptPromise.confirm FAILED target opts (Some tx)
                     (before ++ (Some r, head) :: rest)).2 = Some r')
  ∧ (Forall (λ p, ∀ r', p.1 = Some r' → p.2 < blockNumber r' + default 3 target)
       before →
     resolved (TxReceiptPromise.confirm FAILED target opts (Some tx)
                 (before ++ (Some r, head) :: rest)).2 = Some r).
Proof.
  intros Hall Hok Hdeep. unfold TxReceiptPromise.confirm. split.
  - apply confirm_loop_deep; [done | done | lia].
  - intros Hshallow. apply confirm_loop_first_deep; [|done|lia].
    apply Forall_forall. intros p Hp r' Hr'.
    rewrite Forall_forall in Hall. rewrite Forall_forall in Hshallow.
    split; [by apply (Hall p Hp) | specialize (Hshallow p Hp r' Hr'); lia].
Qed.

(** Property X3.  While the chain stands still the handlers keep firing.  A
    receipt that is not a failed one, seen [d] blocks below the head with
    [d] short of the target: the first poll fires the handlers [d] times,
    and every further poll that finds the head where it was fires them once
    more, though no confirmation has been added. *)
Theorem confirm_stalled_chain_fires_every_poll confirm ms tx r d n :
  status r ≠ Some FAILED → 0 < d < confirm →
  confirm_loop confirm ms tx 0 (observed r (replicate (S n) (blockNumber r + d)))
  = (emitTimes (d + Z.of_nat n) tx r, Polling d).
Proof.
  intros Hok Hd.
  cbn [replicate observed fmap list_fmap TxReceiptPromise.confirm_loop].
  rewrite poll_waits; [|by apply hasTransactionError_not_failed|lia|lia].
  replace (blockNumber r + d - blockNumber r - 0) with d by lia.
  pose proof (confirm_loop_stalled confirm ms tx r d n Hok Hd) as Hrest.
  unfold observed in Hrest. rewrite Hrest. f_equal.
  unfold emitTimes. rewrite <- replicate_add. f_equal. lia.
Qed.

End Facts.

(** Claim C5 at a receipt mined at block 100 with status 1, failure being
    0: target 2 and three polls with the head at 100; target 0 and the
    receipt first seen with the head at 100. *)
Lemma confirm_fresh_receipt_witness :
  resolved (TxReceiptPromise.confirm_loop 0 2 7500 tx0 0
              (observed (receiptAt 100 (Some 1)) [100; 100; 100])).2 = None
  ∧ TxReceiptPromise.confirm 0 (Some 0) {| pollInterval := None |} (Some tx0)
      (pending [99] ++ [(Some (receiptAt 100 (Some 1)), 100)])
    = ([], Resolved (receiptAt 100 (Some 1))).
Proof.
  destruct (confirm_fresh_receipt 0 2 7500 {| pollInterval := None |} tx0
              (receiptAt 100 (Some 1))) as [Hwait _].
  destruct (confirm_fresh_receipt 0 0 7500 {| pollInterval := None |} tx0
              (receiptAt 100 (Some 1))) as [_ Hzero].
  split.
  - apply (proj1 (Hwait ltac:(lia))).
    repeat constructor; cbn; auto; lia.
  - apply (Hzero [99] 100 []). cbn. lia.
Defined.

(** Claim C6 at a transaction pending for two polls whose receipt then
    reports status 0, the failure status. *)
Lemma null_receipt_not_error_witness :
  TxReceiptPromise.confirm_loop 0 3 7500 tx0 0 (pending [7; 8]) = ([], Polling 0)
  ∧ TxReceiptPromise.confirm_loop 0 3 7500 tx0 0
      (pending [7; 8] ++ [(Some (receiptAt 9 (Some 0)), 9)])
    = ([], Rejected "Transaction process error").
Proof.
  destruct (null_receipt_not_error 0 3 7500 tx0 0) as (_ & Hpending & _ & _ & Hfail).
  split.
  - apply Hpending. exact [].
  - apply Hfail. reflexivity.
Defined.

(** A receipt mined at block 100 with status 1, failure being 0: target 2,
    polled with the head at 101 and then at 102. *)
Lemma confirm_resolves_at_depth_witness :
  ∃ head, (Some (receiptAt 100 (Some 1)), head)
            ∈ observed (receiptAt 100 (Some 1)) [101; 102]
          ∧ status (receiptAt 100 (Some 1)) ≠ Some 0
          ∧ blockNumber (receiptAt 100 (Some 1)) + default 3 (Some 2) ≤ head.
Proof.
  apply (confirm_resolves_at_depth 0 (Some 2) {| pollInterval := None |}
           (Some tx0) (observed (receiptAt 100 (Some 1)) [101; 102])
           (receiptAt 100 (Some 1))).
  reflexivity.
Defined.

(** A transaction pending for one poll, its receipt then seen at depth 1,
    and at depth 3 with the default target. *)
Lemma confirm_resolves_once_deep_witness :
  resolved (TxReceiptPromise.confirm 0 None {| pollInterval := None |} (Some tx0)
              ([(None, 100); (Some (receiptAt 100 (Some 1)), 101)]
               ++ [(Some (receiptAt 100 (Some 1)), 103)])).2
  = Some (receiptAt 100 (Some 1)).
Proof.
  apply (confirm_resolves_once_deep 0 None {| pollInterval := None |} tx0
           [(None, 100); (Some (receiptAt 100 (Some 1)), 101)]
           (receiptAt 100 (Some 1)) 103 []).
  - repeat constructor; cbn; intros r' [= <-]; cbn; discriminate.
  - cbn. discriminate.
  - cbn. lia.
  - repeat constructor; cbn; intros r' [= <-]; cbn; lia.
Defined.

(** A receipt at depth 2 of a target of 10, polled four times with the head
    at 102: five invocations. *)
Lemma confirm_stalled_chain_fires_every_poll_witness :
  TxReceiptPromise.confirm_loop 0 10 7500 tx0 0
    (observed (receiptAt 100 (Some 1)) (replicate 4 (100 + 2)))
  = (emitTimes (2 + Z.of_nat 3) tx0 (receiptAt 100 (Some 1)), Polling 2).
Proof.
  apply (confirm_stalled_chain_fires_every_poll 0 10 7500 tx0
           (receiptAt 100 (Some 1)) 2 3).
  - cbn. discriminate.
  - lia.
Defined.

End ConfirmationTracker.

(* ===================================================================== *)
(** * Method resolution                                                   *)
(* ===================================================================== *)

Module MethodResolver.
Import Js EthjsAbi MethodMap Scenarios.






Section Facts.

Variable compatible : JsValue → string → bool.



End Facts.



(** The resolutions section 8 of the specification lists for a bare name. *)
Example resolve_bare_foo :
  resolve (representable 8) (buildIndex overloads) "foo" []
    = inr (method "foo" [])
  ∧ resolve (representable 8) (buildIndex overloads) "foo" [JNumber 1]
    = inr (method "foo" ["uint256"])
  ∧ resolve (representable 8) (buildIndex overloads) "foo" [JString "a"]
    = inr (method "foo" ["string"])
  ∧ resolve (representable 8) (buildIndex overloads) "foo" [JNumber 1; JNumber 2]
    = inl AmbiguousOverload.
Proof. repeat split; vm_compute; reflexivity. Qed.

End MethodResolver.

(* ===================================================================== *)
(** * The contract handle: call, send, getLogs                            *)
(* ===================================================================== *)

Module ContractHandle.
Import Js EthRPC EthjsAbi Async Abi ContractTypes Scenarios.

Section Facts.

Variable ethjs : IETHABI.
Variable rpc : Node.
Variable findMethod : string → list JsValue → option IABIMethod.
Variable address : string.

Abbreviation send := (Contract.send ethjs rpc findMethod address).
Abbreviation rawSend := (Contract.rawSend ethjs rpc findMethod address).
Abbreviation call := (Contract.call ethjs rpc findMethod address).
Abbreviation sendRequest := (Contract.sendRequest address).
Abbreviation callRequest := (Contract.callRequest address).

Lemma sent_in_log req (log : list Effect) method args r :
  RpcSendTransaction req ∈ AbiEncodeMethod method args :: RpcSendTransaction r :: log →
  (∀ e, e ∈ log → sends_transaction e = false) →
  req = r.
Proof.
  intros Hin Hlog.
  apply elem_of_cons in Hin as [Hin|Hin]; [discriminate|].
  apply elem_of_cons in Hin as [Hin|Hin]; [by injection Hin|].
  by apply Hlog in Hin.
Qed.

(** What [send] performs, by the resolution of the method. *)
Lemma send_performed method args opts :
  performed (send method args opts) =
    match findMethod method args with
    | None => []
    | Some methodABI =>
      if constant methodABI then []
      else
        match encodeMethod ethjs methodABI args with
        | Threw _ => [AbiEncodeMethod methodABI args]
        | Fulfilled calldata =>
          [AbiEncodeMethod methodABI args;
           RpcSendTransaction (sendRequest opts calldata);
           RpcGetTransaction (txid (node_sendTransaction rpc (sendRequest opts calldata)))]
        end
    end.
Proof.
  unfold performed, Contract.send.
  destruct (findMethod method args) as [methodABI|]; [|done].
  destruct (constant methodABI); [done|].
  unfold encodeInputs.
  destruct (encodeMethod ethjs methodABI args) as [calldata|message]; reflexivity.
Qed.

Lemma rawSend_performed method args opts :
  performed (rawSend method args opts) =
    match findMethod method args with
    | None => []
    | Some methodABI =>
      if constant methodABI then []
      else
        match encodeMethod ethjs methodABI args with
        | Threw _ => [AbiEncodeMethod methodABI args]
        | Fulfilled calldata =>
          [AbiEncodeMethod methodABI args;
           RpcSendTransaction (sendRequest opts calldata)]
        end
    end.
Proof.
  unfold performed, Contract.rawSend.
  destruct (findMethod method args) as [methodABI|]; [|done].
  destruct (constant methodABI); [done|].
  unfold encodeInputs.
  destruct (encodeMethod ethjs methodABI args) as [calldata|message]; reflexivity.
Qed.

(** Claim C7.  For a method resolved to a constant definition, [send] and
    [rawSend] throw before anything is performed: the effect log is as it
    was, no transaction has reached the node.  A transaction [send] or
    [rawSend] submits is for a resolved method that is not constant, and
    for such a method whose arguments encode, [send] does submit it. *)
Theorem send_to_constant_rejected method args opts :
  (∀ methodABI done,
     findMethod method args = Some methodABI →
     constant methodABI = true →
     send method args opts done
       = (Threw ("cannot send to a constant method: " +:+ method), done)
     ∧ rawSend method args opts done
       = (Threw ("Cannot send to a constant method: " +:+ method), done))
  ∧ (∀ req,
       RpcSendTransaction req ∈ performed (send method args opts)
       ∨ RpcSendTransaction req ∈ performed (rawSend method args opts) →
       ∃ methodABI calldata,
         findMethod method args = Some methodABI
         ∧ constant methodABI = false
         ∧ encodeMethod ethjs methodABI args = Fulfilled calldata
         ∧ req = sendRequest opts calldata)
  ∧ (∀ methodABI calldata,
       findMethod method args = Some methodABI →
       constant methodABI = false →
       encodeMethod ethjs methodABI args = Fulfilled calldata →
       RpcSendTransaction (sendRequest opts calldata)
         ∈ performed (send method args opts)).
Proof.
  split; [|split].
  - intros methodABI done Hfind Hconst.
    unfold Contract.send, Contract.rawSend. by rewrite Hfind, Hconst.
  - intros req. rewrite send_performed, rawSend_performed.
    destruct (findMethod method args) as [methodABI|];
      [|intros [H|H]; by apply elem_of_nil in H].
    destruct (constant methodABI) eqn:Hconst;
      [intros [H|H]; by apply elem_of_nil in H|].
    destruct (encodeMethod ethjs methodABI args) as [calldata|message] eqn:Henc.
    + intros H. exists methodABI, calldata. do 3 (split; [done|]).
      destruct H as [H|H]; (eapply sent_in_log; [exact H|]);
        intros e He;
        repeat (apply elem_of_cons in He as [->|He]; [done|]);
        by apply elem_of_nil in He.
    + intros [H|H]; apply elem_of_cons in H as [H|H]; try discriminate;
        by apply elem_of_nil in H.
  - intros methodABI calldata Hfind Hconst Henc.
    rewrite send_performed, Hfind, Hconst, Henc.
    apply list_elem_of_further, list_elem_of_here.
Qed.

(** Claim C10.  For a resolved method whose arguments encode: when the node
    answers [rpc.call] with the empty string, [call] resolves with the empty
    array, and all it has performed is the encoding and the request, the
    decoder has not been called; when the answer is not empty, [call] is
    [decodeOutputs] of the resolved method on it, which asks the decoder
    once and yields one value per declared output. *)
Theorem call_empty_output method args opts methodABI calldata done :
  findMethod method args = Some methodABI →
  encodeMethod ethjs methodABI args = Fulfilled calldata →
  let req := callRequest opts calldata in
  let output := node_call rpc req in
  let done' := done ++ [AbiEncodeMethod methodABI args] ++ [RpcCall req] in
  let types := param_type <$> outputs methodABI in
  (output = "" →
     call method args opts done = (Fulfilled [], done')
     ∧ existsb decodes (performed (call method args opts)) = false)
  ∧ (output ≠ "" →
       call method args opts done = decodeOutputs ethjs methodABI output done'
       ∧ ∀ result,
           decodeParams ethjs [] types output = Fulfilled result →
           call method args opts done
             = (Fulfilled (positional result (length (outputs methodABI))),
                done' ++ [AbiDecodeParams types output])).
Proof.
  intros Hfind Henc req output done' types.
  assert (∀ d, call method args opts d =
               (if String.eqb output "" then mret []
                else decodeOutputs ethjs methodABI output)
                 ((d ++ [AbiEncodeMethod methodABI args]) ++ [RpcCall req])) as Hcall.
  { intros d. unfold Contract.call, Contract.rawCall, Contract.encodeParams.
    rewrite Hfind. unfold encodeInputs. rewrite Henc. reflexivity. }
  split.
  - intros Hout. unfold performed. rewrite !Hcall, Hout. cbn [String.eqb].
    split; [by rewrite <- app_assoc | reflexivity].
  - intros Hout. rewrite Hcall.
    destruct (String.eqb_spec output "") as [|_]; [done|].
    unfold done'. rewrite app_assoc. split; [done|].
    intros result Hdec. unfold decodeOutputs. fold types. rewrite Hdec.
    unfold positional. subst types. by rewrite length_fmap.
Qed.

Abbreviation rawCall := (Contract.rawCall ethjs rpc findMethod address).
Abbreviation encodeParams := (Contract.encodeParams ethjs findMethod).

(** What [call] performs, by the resolution of the method. *)
Lemma call_performed method args opts :
  performed (call method args opts) =
    match findMethod method args with
    | None => []
    | Some methodABI =>
      match encodeMethod ethjs methodABI args with
      | Threw _ => [AbiEncodeMethod methodABI args]
      | Fulfilled calldata =>
        let output := node_call rpc (callRequest opts calldata) in
        [AbiEncodeMethod methodABI args; RpcCall (callRequest opts calldata)]
        ++ (if String.eqb output "" then []
            else [AbiDecodeParams (param_type <$> outputs methodABI) output])
      end
    end.
Proof.
  unfold performed, Contract.call, Contract.rawCall, Contract.encodeParams.
  destruct (findMethod method args) as [methodABI|] eqn:Hfind; [|done].
  unfold encodeInputs.
  destruct (encodeMethod ethjs methodABI args) as [calldata|message] eqn:Henc;
    [|reflexivity].
  unfold mbind, async_bind, perform. cbn.
  destruct (String.eqb _ ""); [reflexivity|].
  unfold decodeOutputs, mbind, async_bind, perform.
  by destruct (decodeParams ethjs [] _ _).
Qed.

Lemma rawCall_performed method args opts :
  performed (rawCall method args opts) =
    match findMethod method args with
    | None => []
    | Some methodABI =>
      match encodeMethod ethjs methodABI args with
      | Threw _ => [AbiEncodeMethod methodABI args]
      | Fulfilled calldata =>
        [AbiEncodeMethod methodABI args; RpcCall (callRequest opts calldata)]
      end
    end.
Proof.
  unfold performed, Contract.rawCall, Contract.encodeParams.
  destruct (findMethod method args) as [methodABI|]; [|done].
  unfold encodeInputs.
  by destruct (encodeMethod ethjs methodABI args) as [calldata|message].
Qed.

(** Property X4.  A method name the resolver knows no definition for is
    rejected before anything is done:  [encodeParams], [rawCall] and [call]
    throw "Unknown method to call", [rawSend] and [send] throw "Unknown
    method to send", and the effect log is as it was; the codec has not been
    asked and no request has reached the node. *)
Theorem unknown_method_rejected method args copts sopts done :
  findMethod method args = None →
  encodeParams method args done
    = (Threw ("Unknown method to call: " +:+ method), done)
  ∧ rawCall method args copts done
    = (Threw ("Unknown method to call: " +:+ method), done)
  ∧ call method args copts done
    = (Threw ("Unknown method to call: " +:+ method), done)
  ∧ rawSend method args sopts done
    = (Threw ("Unknown method to send: " +:+ method), done)
  ∧ send method args sopts done
    = (Threw ("Unknown method to send: " +:+ method), done).
Proof.
  intros Hfind.
  unfold Contract.call, Contract.rawCall, Contract.encodeParams,
    Contract.rawSend, Contract.send.
  rewrite Hfind. repeat split.
Qed.

(** Property X5.  Arguments the codec refuses to encode never reach the
    node:  [rawCall] and [call], and [rawSend] and [send] for a method that
    is not constant, are rejected with the codec's error, and all that has
    been performed is the attempt to encode. *)
Theorem unencodable_arguments_stay_local method args copts sopts methodABI
    message done :
  findMethod method args = Some methodABI →
  encodeMethod ethjs methodABI args = Threw message →
  let done' := done ++ [AbiEncodeMethod methodABI args] in
  rawCall method args copts done = (Threw message, done')
  ∧ call method args copts done = (Threw message, done')
  ∧ (constant methodABI = false →
     rawSend method args sopts done = (Threw message, done')
     ∧ send method args sopts done = (Threw message, done')).
Proof.
  intros Hfind Henc done'.
  unfold Contract.call, Contract.rawCall, Contract.encodeParams,
    Contract.rawSend, Contract.send.
  rewrite Hfind. unfold encodeInputs, mbind, async_bind, perform.
  rewrite Henc. split; [done|]. split; [done|]. by intros ->.
Qed.

(** Property X6.  [call] does not create a transaction, and it asks the node
    at most once: it never performs [rpc.sendTransaction]; the requests that
    reach the node are those of [rawCall], at most one; and a request it
    makes is addressed to the contract and carries the data the codec has
    encoded for the resolved method. *)
Theorem call_is_read_only method args opts :
  existsb sends_transaction (performed (call method args opts)) = false
  ∧ List.filter Trace.reachesNode (performed (call method args opts))
    = List.filter Trace.reachesNode (performed (rawCall method args opts))
  ∧ (length (List.filter Trace.reachesNode (performed (call method args opts))) ≤ 1)%nat
  ∧ (∀ e, e ∈ performed (call method args opts) →
       Trace.reachesNode e = true →
       ∃ methodABI calldata,
         findMethod method args = Some methodABI
         ∧ encodeMethod ethjs methodABI args = Fulfilled calldata
         ∧ e = RpcCall (callRequest opts calldata)
         ∧ call_to (callRequest opts calldata) = address
         ∧ call_data (callRequest opts calldata) = calldata).
Proof.
  rewrite call_performed, rawCall_performed.
  destruct (findMethod method args) as [methodABI|];
    [|repeat split; try done; cbn; try lia; intros e He; by apply elem_of_nil in He].
  destruct (encodeMethod ethjs methodABI args) as [calldata|message] eqn:Henc.
  - cbn zeta. destruct (String.eqb _ ""); cbn.
    + repeat split; try done; try lia. intros e He Hnode.
      exists methodABI, calldata. do 2 (split; [done|]). split; [|done].
      apply elem_of_cons in He as [->|He]; [done|].
      apply elem_of_cons in He as [->|He]; [done|]. by apply elem_of_nil in He.
    + repeat split; try done; try lia. intros e He Hnode.
      exists methodABI, calldata. do 2 (split; [done|]). split; [|done].
      apply elem_of_cons in He as [->|He]; [done|].
      apply elem_of_cons in He as [->|He]; [done|].
      apply elem_of_cons in He as [->|He]; [done|]. by apply elem_of_nil in He.
  - repeat split; try done; cbn; try lia. intros e He Hnode.
    apply elem_of_cons in He as [->|He]; [done|]. by apply elem_of_nil in He.
Qed.

(** Property X7.  What [call] resolves with has the shape of the resolved
    method's outputs: no value at all, for the empty output of the node, or
    exactly one value per declared output, whatever the decoder has
    produced. *)
Theorem call_values_match_outputs method args opts done values done' :
  call method args opts done = (Fulfilled values, done') →
  ∃ methodABI,
    findMethod method args = Some methodABI
    ∧ (values = [] ∨ length values = length (outputs methodABI)).
Proof.
  unfold Contract.call, Contract.rawCall, Contract.encodeParams.
  destruct (findMethod method args) as [methodABI|] eqn:Hfind; [|done].
  unfold encodeInputs, mbind, async_bind, perform.
  destruct (encodeMethod ethjs methodABI args) as [calldata|message]; [|done].
  cbn. destruct (String.eqb _ "").
  - intros [= <- _]. exists methodABI. split; [done | by left].
  - unfold decodeOutputs, mbind, async_bind, perform.
    destruct (decodeParams ethjs [] _ _) as [result|message]; [|done].
    intros [= <- _]. exists methodABI. split; [done|]. right.
    unfold positional. by rewrite !length_fmap, length_seq.
Qed.

End Facts.

(** Claim C7 at [send("getFoo")] and [send("setFoo", [7])] of the contract
    above. *)
Lemma send_to_constant_rejected_witness :
  Contract.send fooCodec (fooNode "0x2a") fooMethods "0xc0" "getFoo" [] noSendOptions []
    = (Threw "cannot send to a constant method: getFoo", [])
  ∧ RpcSendTransaction (Contract.sendRequest "0xc0" noSendOptions "setFoo")
      ∈ performed (Contract.send fooCodec (fooNode "0x2a") fooMethods "0xc0"
                     "setFoo" [JNumber 7] noSendOptions).
Proof.
  split.
  - apply (send_to_constant_rejected fooCodec (fooNode "0x2a") fooMethods "0xc0"
             "getFoo" [] noSendOptions) with (methodABI := getFoo); reflexivity.
  - apply (send_to_constant_rejected fooCodec (fooNode "0x2a") fooMethods "0xc0"
             "setFoo" [JNumber 7] noSendOptions) with (methodABI := setFoo);
      reflexivity.
Defined.

(** Claim C10 at [call("getFoo")] against a node that answers with the
    empty string, and against one that answers with ["0x2a"]. *)
Lemma call_empty_output_witness :
  Contract.call fooCodec (fooNode "") fooMethods "0xc0" "getFoo" [] noCallOptions []
    = (Fulfilled [],
       [AbiEncodeMethod getFoo [];
        RpcCall (Contract.callRequest "0xc0" noCallOptions "getFoo")])
  ∧ Contract.call fooCodec (fooNode "0x2a") fooMethods "0xc0" "getFoo" []
      noCallOptions []
    = (Fulfilled [JString "0x2a"],
       [AbiEncodeMethod getFoo [];
        RpcCall (Contract.callRequest "0xc0" noCallOptions "getFoo");
        AbiDecodeParams ["uint256"] "0x2a"]).
Proof.
  split.
  - apply (call_empty_output fooCodec (fooNode "") fooMethods "0xc0"
             "getFoo" [] noCallOptions getFoo "getFoo" [] eq_refl eq_refl).
    reflexivity.
  - apply (call_empty_output fooCodec (fooNode "0x2a") fooMethods "0xc0"
             "getFoo" [] noCallOptions getFoo "getFoo" [] eq_refl eq_refl).
    cbn. discriminate.
Defined.

(** The contract above asked for a method it does not have. *)
Lemma unknown_method_rejected_witness :
  Contract.call fooCodec (fooNode "0x2a") fooMethods "0xc0" "getBar" []
    noCallOptions []
    = (Threw "Unknown method to call: getBar", [])
  ∧ Contract.send fooCodec (fooNode "0x2a") fooMethods "0xc0" "getBar" []
      noSendOptions []
    = (Threw "Unknown method to send: getBar", []).
Proof.
  destruct (unknown_method_rejected fooCodec (fooNode "0x2a") fooMethods "0xc0"
              "getBar" [] noCallOptions noSendOptions [] eq_refl)
    as (_ & _ & Hcall & _ & Hsend).
  split; [exact Hcall | exact Hsend].
Defined.

(** The contract above behind a codec that refuses every argument list. *)
Lemma unencodable_arguments_stay_local_witness :
  Contract.call refusingCodec (fooNode "0x2a") fooMethods "0xc0" "getFoo" []
    noCallOptions []
    = (Threw "invalid argument", [AbiEncodeMethod getFoo []])
  ∧ Contract.send refusingCodec (fooNode "0x2a") fooMethods "0xc0" "setFoo"
      [JString "x"] noSendOptions []
    = (Threw "invalid argument", [AbiEncodeMethod setFoo [JString "x"]]).
Proof.
  split.
  - apply (unencodable_arguments_stay_local refusingCodec (fooNode "0x2a")
             fooMethods "0xc0" "getFoo" [] noCallOptions noSendOptions getFoo
             "invalid argument" [] eq_refl eq_refl).
  - apply (unencodable_arguments_stay_local refusingCodec (fooNode "0x2a")
             fooMethods "0xc0" "setFoo" [JString "x"] noCallOptions noSendOptions
             setFoo "invalid argument" [] eq_refl eq_refl).
    reflexivity.
Defined.

(** [call("getFoo")] of the contract above, answered with ["0x2a"]: one
    value for the one declared output. *)
Lemma call_values_match_outputs_witness :
  ∃ methodABI,
    fooMethods "getFoo" [] = Some methodABI
    ∧ ([JString "0x2a"] = [] ∨ length [JString "0x2a"] = length (outputs methodABI)).
Proof.
  apply (call_values_match_outputs fooCodec (fooNode "0x2a") fooMethods "0xc0"
           "getFoo" [] noCallOptions [] [JString "0x2a"]
           [AbiEncodeMethod getFoo [];
            RpcCall (Contract.callRequest "0xc0" noCallOptions "getFoo");
            AbiDecodeParams ["uint256"] "0x2a"]).
  reflexivity.
Defined.

End ContractHandle.

(* ===================================================================== *)
(** * Decoding a batch of logs                                            *)
(* ===================================================================== *)

Module Decoding.
Import Js EthRPC EthjsAbi Abi ContractTypes.

Section MapSettled.

Context {A B : Type}.
Variable f : A → Settled B.

(** The [map] returns when the callback throws on no item, and then one
    value per item. *)
Lemma mapSettled_fulfilled items bs :
  mapSettled f items = Fulfilled bs ↔ Forall2 (λ a b, f a = Fulfilled b) items bs.
Proof.
  revert bs. induction items as [|item items IH]; intros bs; cbn.
  - split; [intros [= <-]; constructor | by intros ->%Forall2_nil_inv_l].
  - destruct (f item) as [b|m] eqn:Hf.
    + destruct (mapSettled f items) as [bs'|m] eqn:Hm.
      * split.
        -- intros [= <-]. constructor; [done | by apply IH].
        -- intros (b' & bs'' & Hb & Hbs & ->)%Forall2_cons_inv_l.
           apply IH in Hbs. congruence.
      * split; [done|].
        intros (b' & bs'' & Hb & Hbs & ->)%Forall2_cons_inv_l.
        by apply IH in Hbs.
    + split; [done|].
      intros (b' & bs'' & Hb & Hbs & ->)%Forall2_cons_inv_l. congruence.
Qed.

(** The [map] throws what the callback throws on the first item it throws
    on. *)
Lemma mapSettled_threw items message :
  mapSettled f items = Threw message ↔
  ∃ before item after,
    items = before ++ item :: after
    ∧ Forall (λ a, ∃ b, f a = Fulfilled b) before
    ∧ f item = Threw message.
Proof.
  induction items as [|item items IH]; cbn.
  - split; [done|]. intros (before & a & after & Heq & _). by destruct before.
  - destruct (f item) as [b|m] eqn:Hf.
    + transitivity (mapSettled f items = Threw message).
      { destruct (mapSettled f items); split; congruence. }
      rewrite IH. split.
      * intros (before & a & after & -> & Hall & Ha).
        exists (item :: before), a, after. split; [done|].
        split; [|done]. constructor; [by exists b | done].
      * intros (before & a & after & Heq & Hall & Ha).
        destruct before as [|a0 before]; cbn in Heq; simplify_eq; [congruence|].
        apply Forall_cons in Hall as [_ Hall]. by exists before, a, after.
    + split.
      * intros [= ->]. exists [], item, items. by repeat split.
      * intros (before & a & after & Heq & Hall & Ha).
        destruct before as [|a0 before]; cbn in Heq; simplify_eq; [congruence|].
        apply Forall_cons in Hall as [[b Hb] _]. congruence.
Qed.

Lemma mapSettled_total items :
  (∀ item, item ∈ items → ∃ b, f item = Fulfilled b) →
  ∃ bs, mapSettled f items = Fulfilled bs.
Proof.
  intros Hall. destruct (mapSettled f items) as [bs|message] eqn:Hm; [eauto|].
  apply mapSettled_threw in Hm as (before & item & after & -> & _ & Hthrow).
  destruct (Hall item) as [b Hb]; [|congruence].
  apply elem_of_app. right. apply list_elem_of_here.
Qed.

Lemma mapSettled_lookup items bs i item :
  mapSettled f items = Fulfilled bs → items !! i = Some item →
  ∃ b, f item = Fulfilled b ∧ bs !! i = Some b.
Proof.
  intros Hm Hi. apply mapSettled_fulfilled in Hm.
  destruct (Forall2_lookup_l _ _ _ _ _ Hm Hi) as (b & Hb & Hf). eauto.
Qed.

Lemma mapSettled_length items bs :
  mapSettled f items = Fulfilled bs → length bs = length items.
Proof.
  intros Hm. apply mapSettled_fulfilled in Hm. symmetry.
  by eapply Forall2_length.
Qed.

End MapSettled.

Section Decoder.

Variable logDecoder : ContractLogDecoder.

(** A raw log the decoder finds no event for does not make [decode]
    throw: it decodes to [null]. *)
Lemma decode_unknown rawlog :
  _decoder logDecoder [rawlog] = Fulfilled [] →
  decode logDecoder rawlog = Fulfilled None.
Proof. unfold decode. by intros ->. Qed.

Lemma decodeEntry_fulfilled rawlog e :
  decodeEntry logDecoder rawlog = Fulfilled e ↔
  ∃ parsed, decode logDecoder rawlog = Fulfilled parsed
            ∧ e = {| entry := rawlog; event := parsed |}.
Proof.
  unfold decodeEntry. destruct (decode logDecoder rawlog) as [parsed|m].
  - split; [intros [= <-]; eauto | by intros (p & [= <-] & ->)].
  - split; [done | by intros (p & [=] & _)].
Qed.

Lemma decodeEntry_threw rawlog message :
  decodeEntry logDecoder rawlog = Threw message ↔
  decode logDecoder rawlog = Threw message.
Proof.
  unfold decodeEntry. destruct (decode logDecoder rawlog) as [parsed|m];
    split; congruence.
Qed.

(** The entries [getLogs] returns: one per raw log of the answer, in the
    node's order, with the raw log in it as it came and what [decode] made
    of it. *)
Lemma decodeEntries_fulfilled result batch :
  decodeEntries logDecoder result = Fulfilled batch →
  entry <$> batch = result
  ∧ ∀ i rawlog, result !! i = Some rawlog →
      ∃ parsed, decode logDecoder rawlog = Fulfilled parsed
                ∧ batch !! i = Some {| entry := rawlog; event := parsed |}.
Proof.
  unfold decodeEntries. intros Hm. split.
  - apply mapSettled_fulfilled in Hm.
    induction Hm as [|rawlog e result batch He _ IH]; [done|].
    apply decodeEntry_fulfilled in He as (parsed & _ & ->). cbn. by rewrite IH.
  - intros i rawlog Hi.
    destruct (mapSettled_lookup _ _ _ _ _ Hm Hi) as (e & He & Hb).
    apply decodeEntry_fulfilled in He as (parsed & Hp & ->). eauto.
Qed.

(** It returns when [decode] throws on no log of the answer. *)
Lemma decodeEntries_total result :
  (∀ rawlog, rawlog ∈ result → ∃ parsed, decode logDecoder rawlog = Fulfilled parsed) →
  ∃ batch, decodeEntries logDecoder result = Fulfilled batch.
Proof.
  intros Hall. apply mapSettled_total. intros rawlog Hin.
  destruct (Hall rawlog Hin) as [parsed Hp].
  exists {| entry := rawlog; event := parsed |}.
  apply decodeEntry_fulfilled. eauto.
Qed.

(** It throws what [decode] throws on the first log it throws on. *)
Lemma decodeEntries_threw result message :
  decodeEntries logDecoder result = Threw message ↔
  ∃ before rawlog after,
    result = before ++ rawlog :: after
    ∧ Forall (λ l, ∃ parsed, decode logDecoder l = Fulfilled parsed) before
    ∧ decode logDecoder rawlog = Threw message.
Proof.
  unfold decodeEntries. rewrite mapSettled_threw.
  split; intros (before & rawlog & after & -> & Hall & Hthrow);
    exists before, rawlog, after; (split; [done|]).
  - split; [|by apply decodeEntry_threw].
    eapply Forall_impl; [exact Hall|]. intros l [e He].
    apply decodeEntry_fulfilled in He as (parsed & Hp & _). eauto.
  - split; [|by apply decodeEntry_threw].
    eapply Forall_impl; [exact Hall|]. intros l [parsed Hp].
    exists {| entry := l; event := parsed |}. apply decodeEntry_fulfilled. eauto.
Qed.

End Decoder.

End Decoding.

(* ===================================================================== *)
(** * First return values and decoded receipts                            *)
(* ===================================================================== *)

Module ContractResults.
Import Js EthRPC EthjsAbi Async Abi ContractTypes ContractApi Scenarios.
#[local] Open Scope Z_scope.

Section Facts.

Variable ethjs : IETHABI.
Variable rpc : Node.
Variable findMethod : string → list JsValue → option IABIMethod.
Variable address : string.
Variable logDecoder : ContractLogDecoder.
Variable toNumber : Z → Settled Z.
Variable FAILED : Z.

Abbreviation call := (Contract.call ethjs rpc findMethod address).
Abbreviation return_ := (ContractApi.return_ ethjs rpc findMethod address).
Abbreviation returnNumber :=
  (ContractApi.returnNumber ethjs rpc findMethod address toNumber).
Abbreviation returnDate := (ContractApi.returnDate ethjs rpc findMethod address).
Abbreviation _makeSendTxReceipt := (ContractApi._makeSendTxReceipt logDecoder).
Abbreviation notify := (ContractApi.notify logDecoder).

(** The three in terms of what [call] does. *)
Lemma return_call method args opts done :
  return_ method args opts done =
    match call method args opts done with
    | (Fulfilled values, done') => (Fulfilled (default JUndefined (head values)), done')
    | (Threw message, done') => (Threw message, done')
    end.
Proof.
  unfold ContractApi.return_, mbind, async_bind.
  by destruct (call method args opts done) as [[values|message] done'].
Qed.

Lemma returnNumber_call method args opts done :
  returnNumber method args opts done =
    match call method args opts done with
    | (Fulfilled values, done') =>
      match default JUndefined (head values) with
      | JUndefined => (Threw "Cannot read property 'toNumber' of undefined", done')
      | JBigNumber n => (toNumber n, done')
      | _ => (Threw "Cannot convert result to a number", done')
      end
    | (Threw message, done') => (Threw message, done')
    end.
Proof.
  unfold ContractApi.returnNumber, mbind, async_bind.
  destruct (call method args opts done) as [[values|message] done']; [|done].
  by destruct (default JUndefined (head values)).
Qed.

Lemma returnDate_call method args opts done :
  returnDate method args opts done =
    match call method args opts done with
    | (Fulfilled values, done') =>
      match default JUndefined (head values) with
      | JNumber n => (Fulfilled {| getTime := n * 1000 |}, done')
      | _ =>
        (Threw "Cannot convert return value to Date. Expect return value to be a number.",
         done')
      end
    | (Threw message, done') => (Threw message, done')
    end.
Proof.
  unfold ContractApi.returnDate. unfold mbind at 1. unfold async_bind.
  rewrite return_call.
  destruct (call method args opts done) as [[values|message] done']; [|done].
  by destruct (default JUndefined (head values)).
Qed.

(** Property X8.  [returnNumber] and [returnDate] accept different values.
    [returnNumber] resolves exactly when [call] resolves with a big number
    in front that converts, and then with the converted number; [returnDate]
    resolves exactly when [call] resolves with a plain number in front,
    taken for seconds; so no method, arguments and node make both of them
    resolve: one of the two always throws. *)
Theorem number_and_date_exclusive method args opts done :
  (∀ k done',
     returnNumber method args opts done = (Fulfilled k, done') ↔
     ∃ values n,
       call method args opts done = (Fulfilled values, done')
       ∧ head values = Some (JBigNumber n) ∧ toNumber n = Fulfilled k)
  ∧ (∀ date done',
       returnDate method args opts done = (Fulfilled date, done') ↔
       ∃ values n,
         call method args opts done = (Fulfilled values, done')
         ∧ head values = Some (JNumber n) ∧ date = {| getTime := n * 1000 |})
  ∧ ((∃ message done', returnNumber method args opts done = (Threw message, done'))
     ∨ (∃ message done', returnDate method args opts done = (Threw message, done'))).
Proof.
  rewrite returnNumber_call, returnDate_call.
  destruct (call method args opts done) as [[values|message] done0].
  - destruct (head values) as [[|b|n|s|n|items]|] eqn:Hhead; cbn;
      (split; [|split]);
      try (left; eauto; fail); try (right; eauto; fail);
      try (intros ? ?; split;
           [discriminate
           |intros (? & ? & [= <- <-] & Hh & ?); rewrite Hhead in Hh; discriminate]).
    all: intros x done'; split;
      [intros [= Hx <-]; exists values, n; subst; done
      |intros (vs & n' & [= <- <-] & Hh & Hk); rewrite Hhead in Hh;
       injection Hh as <-; by rewrite Hk].
  - split; [|split];
      try (intros ? ?; split; [discriminate | intros (? & ? & [=] & _)]).
    left. eauto.
Qed.

(** Property X9.  On the empty output of the node, for which [call] resolves
    with no value:  [return] resolves with [undefined], and [returnNumber]
    and [returnDate] both throw, after the one request to the node. *)
Theorem empty_output_has_no_first_value method args opts methodABI calldata done :
  findMethod method args = Some methodABI →
  encodeMethod ethjs methodABI args = Fulfilled calldata →
  node_call rpc (Contract.callRequest address opts calldata) = "" →
  let done' := done ++ [AbiEncodeMethod methodABI args]
                    ++ [RpcCall (Contract.callRequest address opts calldata)] in
  return_ method args opts done = (Fulfilled JUndefined, done')
  ∧ (∃ message, returnNumber method args opts done = (Threw message, done'))
  ∧ (∃ message, returnDate method args opts done = (Threw message, done')).
Proof.
  intros Hfind Henc Hout done'.
  assert (call method args opts done = (Fulfilled [], done')) as Hcall.
  { unfold Contract.call, Contract.rawCall, Contract.encodeParams.
    rewrite Hfind. unfold encodeInputs, mbind, async_bind, perform.
    rewrite Henc, Hout. cbn. by rewrite <- app_assoc. }
  rewrite return_call, returnNumber_call, returnDate_call, Hcall. cbn.
  eauto.
Qed.

Lemma makeSendTxReceipt_fulfilled nodeReceipt decoded :
  _makeSendTxReceipt nodeReceipt = Fulfilled decoded ↔
  mapSettled (decode logDecoder) (EthRPC.logs nodeReceipt)
    = Fulfilled (receipt_logs decoded)
  ∧ receipt_rawlogs decoded = EthRPC.logs nodeReceipt
  ∧ receipt_transactionHash decoded = transactionHash nodeReceipt
  ∧ receipt_blockNumber decoded = blockNumber nodeReceipt
  ∧ receipt_status decoded = status nodeReceipt.
Proof.
  unfold ContractApi._makeSendTxReceipt. cbn zeta.
  destruct (mapSettled (decode logDecoder) (EthRPC.logs nodeReceipt))
    as [logs|message].
  - split.
    + by intros [= <-].
    + intros ([= ->] & Hraw & Hhash & Hbn & Hst). destruct decoded. cbn in *.
      by subst.
  - split; [done | by intros [[=] _]].
Qed.

Lemma makeSendTxReceipt_threw nodeReceipt message :
  _makeSendTxReceipt nodeReceipt = Threw message ↔
  mapSettled (decode logDecoder) (EthRPC.logs nodeReceipt) = Threw message.
Proof.
  unfold ContractApi._makeSendTxReceipt. cbn zeta.
  destruct (mapSettled (decode logDecoder) (EthRPC.logs nodeReceipt));
    split; congruence.
Qed.

(** The calls of [onConfirm] are the tracker's invocations decoded, in
    order, up to the first receipt that does not decode. *)
Lemma notify_calls emits :
  (length (notify emits).1 ≤ length emits)%nat
  ∧ (∀ i call, (notify emits).1 !! i = Some call →
       ∃ e, emits !! i = Some e ∧ call.1 = TxReceiptPromise.emit_tx e
            ∧ _makeSendTxReceipt (TxReceiptPromise.emit_receipt e) = Fulfilled call.2)
  ∧ match (notify emits).2 with
    | None => length (notify emits).1 = length emits
    | Some message =>
      ∃ e, emits !! length (notify emits).1 = Some e
           ∧ _makeSendTxReceipt (TxReceiptPromise.emit_receipt e) = Threw message
    end.
Proof.
  induction emits as [|e emits (Hlen & Hcalls & Hthrown)]; [by repeat split|].
  cbn [ContractApi.notify].
  destruct (_makeSendTxReceipt (TxReceiptPromise.emit_receipt e))
    as [decoded|message] eqn:He.
  - destruct (notify emits) as [calls thrown].
    cbn [fst snd length] in *. split; [lia|]. split.
    + intros [|i] call; cbn.
      * intros [= <-]. by exists e.
      * apply Hcalls.
    + destruct thrown as [message|]; [exact Hthrown | by rewrite Hthrown].
  - cbn. split; [lia|]. split; [done|]. by exists e.
Qed.

(** Property X10.  A decoded receipt keeps the raw logs and lines the
    decoded ones up with them.  When [_makeSendTxReceipt] returns,
    [rawlogs] is the [logs] of the node's receipt, unchanged; there is one
    decoded log per raw log, at the same position, what [decode] made of
    it; and it is [null] there, for all that the type says, when the
    decoder finds no event for the raw log; hash, block number and status
    are the receipt's.  It returns when [decode] throws on none of the
    receipt's logs, and it throws exactly when [decode] throws on one of
    them, with the error of the first such log.  [receipt] is [null]
    exactly while the node has no receipt; for a receipt of the node it
    resolves with the decoded receipt or is rejected as
    [_makeSendTxReceipt] returns or throws. *)
Theorem receipt_logs_aligned (nodeReceipt : IGetTransactionReceiptResult)
    (getTransactionReceipt : string → option IGetTransactionReceiptResult)
    (txid : string) :
  (∀ decoded,
     _makeSendTxReceipt nodeReceipt = Fulfilled decoded →
     receipt_rawlogs decoded = EthRPC.logs nodeReceipt
     ∧ length (receipt_logs decoded) = length (receipt_rawlogs decoded)
     ∧ (∀ i rawlog,
          receipt_rawlogs decoded !! i = Some rawlog →
          ∃ parsed,
            decode logDecoder rawlog = Fulfilled parsed
            ∧ receipt_logs decoded !! i = Some parsed
            ∧ (_decoder logDecoder [rawlog] = Fulfilled [] → parsed = None))
     ∧ (receipt_transactionHash decoded, receipt_blockNumber decoded,
        receipt_status decoded)
       = (transactionHash nodeReceipt, blockNumber nodeReceipt, status nodeReceipt))
  ∧ ((∀ rawlog, rawlog ∈ EthRPC.logs nodeReceipt →
        ∃ parsed, decode logDecoder rawlog = Fulfilled parsed) →
     ∃ decoded, _makeSendTxReceipt nodeReceipt = Fulfilled decoded)
  ∧ (∀ message,
       _makeSendTxReceipt nodeReceipt = Threw message ↔
       ∃ before rawlog after,
         EthRPC.logs nodeReceipt = before ++ rawlog :: after
         ∧ Forall (λ l, ∃ parsed, decode logDecoder l = Fulfilled parsed) before
         ∧ decode logDecoder rawlog = Threw message)
  ∧ (ContractApi.receipt logDecoder getTransactionReceipt txid = Fulfilled None
     ↔ getTransactionReceipt txid = None)
  ∧ (∀ r, getTransactionReceipt txid = Some r →
       (∀ decoded,
          ContractApi.receipt logDecoder getTransactionReceipt txid
            = Fulfilled (Some decoded)
          ↔ _makeSendTxReceipt r = Fulfilled decoded)
       ∧ (∀ message,
            ContractApi.receipt logDecoder getTransactionReceipt txid = Threw message
            ↔ _makeSendTxReceipt r = Threw message)).
Proof.
  split; [|split; [|split; [|split]]].
  - intros decoded Hd.
    apply makeSendTxReceipt_fulfilled in Hd as (Hlogs & Hraw & Hhash & Hbn & Hst).
    split; [done|]. rewrite Hraw.
    split; [by apply (Decoding.mapSettled_length (decode logDecoder))|].
    split; [|by rewrite Hhash, Hbn, Hst].
    intros i rawlog Hi.
    destruct (Decoding.mapSettled_lookup _ _ _ _ _ Hlogs Hi) as (parsed & Hp & Hl).
    exists parsed. do 2 (split; [done|]). intros Hnone.
    rewrite (Decoding.decode_unknown logDecoder rawlog Hnone) in Hp. congruence.
  - intros Hall.
    destruct (Decoding.mapSettled_total (decode logDecoder) _ Hall) as [logs Hlogs].
    unfold ContractApi._makeSendTxReceipt. cbn zeta. rewrite Hlogs. eauto.
  - intros message. rewrite makeSendTxReceipt_threw.
    apply Decoding.mapSettled_threw.
  - unfold ContractApi.receipt. destruct (getTransactionReceipt txid) as [r|]; [|done].
    destruct (_makeSendTxReceipt r); split; done.
  - intros r Hr. unfold ContractApi.receipt. rewrite Hr.
    destruct (_makeSendTxReceipt r); split; intros; split; congruence.
Qed.

(** Property X11.  [Contract.confirm] resolves only with a receipt the node
    has shown deep enough, decoded: the receipt it returns is what
    [_makeSendTxReceipt] made of a receipt that answered one of the polls,
    not a failed one, at least the target number of blocks (3 by default)
    below the head of that poll.  With no handler nothing is invoked.  The
    calls of a handler are the invocations of the tracker's handlers, in
    order, with the transaction and the decoded receipt, up to the first
    whose receipt does not decode: there the registered handler throws,
    and the call is rejected with the decoder's error whatever the tracker
    would have gone on to do.  When no call is cut short in this way, the
    call stands as the tracker's does: rejected with the tracker's error,
    waiting while it polls, and for a receipt the tracker resolves with,
    resolved with the decoded receipt, or rejected with the decoder's error
    when it does not decode; so it does resolve when the tracker resolves
    and every receipt involved decodes. *)
Theorem contract_confirm_decodes_receipt target onConfirm tx polls :
  let tracked :=
    TxReceiptPromise.confirm FAILED target
      {| TxReceiptPromise.pollInterval := None |} tx polls in
  let ran := ContractApi.confirm logDecoder FAILED target onConfirm tx polls in
  (∀ R, confirmed ran.2 = Some R →
     ∃ r head,
       (Some r, head) ∈ polls ∧ _makeSendTxReceipt r = Fulfilled R
       ∧ status r ≠ Some FAILED ∧ blockNumber r + default 3 target ≤ head)
  ∧ (onConfirm = false → ran.1 = [])
  ∧ (length ran.1 ≤ length tracked.1)%nat
  ∧ (∀ i call, ran.1 !! i = Some call →
       ∃ e, tracked.1 !! i = Some e ∧ call.1 = TxReceiptPromise.emit_tx e
            ∧ _makeSendTxReceipt (TxReceiptPromise.emit_receipt e) = Fulfilled call.2)
  ∧ (∀ e, onConfirm = true → tracked.1 !! length ran.1 = Some e →
       ∃ message,
         _makeSendTxReceipt (TxReceiptPromise.emit_receipt e) = Threw message
         ∧ ran.2 = Failed message)
  ∧ (onConfirm = false ∨ length ran.1 = length tracked.1 →
     match tracked.2 with
     | TxReceiptPromise.Resolved r =>
       match _makeSendTxReceipt r with
       | Fulfilled R => ran.2 = Confirmed R
       | Threw message => ran.2 = Failed message
       end
     | TxReceiptPromise.Rejected message => ran.2 = Failed message
     | TxReceiptPromise.Polling _ => ran.2 = Waiting
     end)
  ∧ (∀ r R,
       TxReceiptPromise.resolved tracked.2 = Some r →
       (onConfirm = true →
        Forall (λ e, ∃ R', _makeSendTxReceipt (TxReceiptPromise.emit_receipt e)
                           = Fulfilled R') tracked.1) →
       _makeSendTxReceipt r = Fulfilled R →
       ran.2 = Confirmed R).
Proof.
  cbv zeta. unfold ContractApi.confirm.
  destruct (TxReceiptPromise.confirm FAILED target _ tx polls)
    as [emits outcome] eqn:E. cbn [fst snd].
  pose proof (notify_calls emits) as (Hlen & Hcalls & Hthrown).
  assert (∀ r, outcome = TxReceiptPromise.Resolved r →
               ∃ head, (Some r, head) ∈ polls ∧ status r ≠ Some FAILED
                       ∧ blockNumber r + default 3 target ≤ head) as Hsafe.
  { intros r ->.
    assert (TxReceiptPromise.resolved
              (TxReceiptPromise.confirm FAILED target
                 {| TxReceiptPromise.pollInterval := None |} tx polls).2
            = Some r) as Hres by (by rewrite E).
    unfold TxReceiptPromise.confirm in Hres. destruct tx as [tx|]; [|done].
    apply ConfirmationTracker.confirm_loop_resolved in Hres
      as (head & Hin & Hok & Hd).
    exists head. split; [done|]. split; [|lia].
    intros Hs. apply ConfirmationTracker.hasTransactionError_status in Hs.
    congruence. }
  destruct onConfirm.
  - destruct (notify emits) as [calls thrown].
    cbn [fst snd] in *.
    split; [|split; [done|split; [done|split; [done|split; [|split]]]]].
    + intros R HR. destruct thrown; [done|].
      destruct outcome as [r|m|prev]; try done.
      destruct (_makeSendTxReceipt r) as [R'|m] eqn:Hr; [|done].
      injection HR as <-. destruct (Hsafe r eq_refl) as (head & ? & ? & ?).
      by exists r, head.
    + intros e _ He. destruct thrown as [message|].
      * destruct Hthrown as (e' & He' & Hthrow). exists message.
        split; [congruence | done].
      * apply lookup_lt_Some in He. lia.
    + intros [?|Hfull]; [done|]. destruct thrown as [message|].
      * destruct Hthrown as (e' & He' & _). apply lookup_lt_Some in He'. lia.
      * destruct outcome as [r|m|prev]; try done.
        by destruct (_makeSendTxReceipt r).
    + intros r R Hr Hall HR. destruct outcome; try done.
      injection Hr as ->. destruct thrown as [message|]; [|by rewrite HR].
      destruct Hthrown as (e' & He' & Hthrow).
      specialize (Hall eq_refl). rewrite Forall_forall in Hall.
      destruct (Hall e') as [R' HR']; [by eapply list_elem_of_lookup_2|].
      congruence.
  - cbn [fst snd].
    split; [|split; [done|split; [cbn; lia|split; [done|split; [done|split]]]]].
    + intros R HR. destruct outcome as [r|m|prev]; try done.
      destruct (_makeSendTxReceipt r) as [R'|m] eqn:Hr; [|done].
      injection HR as <-. destruct (Hsafe r eq_refl) as (head & ? & ? & ?).
      by exists r, head.
    + intros _. destruct outcome as [r|m|prev]; try done.
      by destruct (_makeSendTxReceipt r).
    + intros r R Hr _ HR. destruct outcome; try done.
      injection Hr as ->. by rewrite HR.
Qed.

End Facts.

(** [getFoo] of the contract above, the node answering with the empty
    string. *)
Lemma empty_output_has_no_first_value_witness :
  ContractApi.return_ fooCodec (fooNode "") fooMethods "0xc0" "getFoo" []
    noCallOptions []
  = (Fulfilled JUndefined,
     [] ++ [AbiEncodeMethod getFoo []]
        ++ [RpcCall (Contract.callRequest "0xc0" noCallOptions "getFoo")]).
Proof.
  apply (empty_output_has_no_first_value fooCodec (fooNode "") fooMethods "0xc0"
           Fulfilled "getFoo" [] noCallOptions getFoo "getFoo" []);
    reflexivity.
Defined.

(** A receipt with a log of a known event and a log of an unknown one, and
    a receipt with a log the decoder throws on behind a log it does not
    know. *)
Lemma receipt_logs_aligned_witness :
  (∃ decoded,
     ContractApi._makeSendTxReceipt strictDecoder (receiptLogging [fooLog; bazLog])
     = Fulfilled decoded)
  ∧ ContractApi._makeSendTxReceipt strictDecoder (receiptLogging [bazLog; barLog])
    = Threw "invalid data for BarEvent".
Proof.
  split.
  - apply (receipt_logs_aligned strictDecoder (receiptLogging [fooLog; bazLog])
             (λ txid, None) "0xabc").
    intros rawlog Hin.
    apply elem_of_cons in Hin as [->|Hin]; [by eexists|].
    apply elem_of_cons in Hin as [->|Hin]; [by eexists|].
    by apply elem_of_nil in Hin.
  - destruct (receipt_logs_aligned strictDecoder (receiptLogging [bazLog; barLog])
                (λ txid, None) "0xabc") as (_ & _ & Hthrows & _).
    apply Hthrows.
    exists [bazLog], barLog, []. split; [done|]. split; [|done].
    repeat constructor. by eexists.
Defined.

(** A transaction whose receipt carries a log the decoder throws on, with a
    handler and target 2, the head at 101 and then at 102: the tracker
    would resolve at 102, but the registered handler throws at the first
    invocation, at 101, and the call is rejected with no call of the
    handler made. *)
Lemma contract_confirm_decodes_receipt_witness :
  (ContractApi.confirm strictDecoder 0 (Some 2) true (Some tx0)
     (observed (receiptLogging [barLog]) [101; 102])).2
  = Failed "invalid data for BarEvent"
  ∧ TxReceiptPromise.resolved
      (TxReceiptPromise.confirm 0 (Some 2)
         {| TxReceiptPromise.pollInterval := None |} (Some tx0)
         (observed (receiptLogging [barLog]) [101; 102])).2
    = Some (receiptLogging [barLog]).
Proof.
  split; [|reflexivity].
  destruct (contract_confirm_decodes_receipt strictDecoder 0 (Some 2) true
              (Some tx0) (observed (receiptLogging [barLog]) [101; 102]))
    as (_ & _ & _ & _ & Hthrow & _).
  destruct (Hthrow {| TxReceiptPromise.emit_tx := tx0;
                      TxReceiptPromise.emit_receipt := receiptLogging [barLog] |}
              eq_refl eq_refl) as (message & Hm & ->).
  injection Hm as <-. reflexivity.
Defined.

End ContractResults.

(* ===================================================================== *)
(** * The test helper                                                     *)
(* ===================================================================== *)

Module TestHelper.
Import Js Testing.
#[local] Open Scope Z_scope.

(** Property X17.  [assertThrow] passes exactly when the function threw
    something other than [undefined]; a function that returns, or throws
    [undefined], fails the assertion, with the caller's message after the
    fixed text when one is given and not empty.  The thrown value is
    reported exactly when a reporter is given and the value is truthy: a
    function throwing 0, [false] or the empty string passes unreported. *)
Theorem assertThrow_passes_on_throw (fn : Ran) (msg : option string)
    (report : bool) :
  ((assertThrow fn msg report).2 = Fulfilled ()
   ↔ ∃ err, fn = Throws err ∧ err ≠ JUndefined)
  ∧ (∀ message, (assertThrow fn msg report).2 = Threw message →
       message = "Expects error to be thrown"
       ∨ ∃ m, msg = Some m ∧ m ≠ ""
              ∧ message = "Expects error to be thrown: " +:+ m)
  ∧ (∀ err, (assertThrow fn msg report).1 = [err]
            ↔ fn = Throws err ∧ truthy err = true ∧ report = true)
  ∧ ((assertThrow fn msg report).1 = []
     ∨ ∃ err, (assertThrow fn msg report).1 = [err])
  ∧ (∀ err, err ∈ [JNumber 0; JBool false; JString EmptyString] →
       assertThrow (Throws err) msg report = ([], Fulfilled ())).
Proof.
  unfold assertThrow. split; [|split; [|split; [|split]]].
  - destruct fn as [|err]; cbn.
    + split; [done | by intros (err & [=] & _)].
    + destruct err; cbn; split; try done; eauto;
        intros (err & [= <-] & Hne); done.
  - intros message. destruct fn as [|err]; cbn.
    + intros [= <-]. destruct msg as [m|]; [|by left].
      destruct (String.eqb_spec m ""); [by left|]. right. by exists m.
    + destruct err; cbn; try done.
      intros [= <-]. destruct msg as [m|]; [|by left].
      destruct (String.eqb_spec m ""); [by left|]. right. by exists m.
  - intros err. destruct fn as [|err']; cbn.
    + split; [done | by intros [[=] _]].
    + destruct (truthy err') eqn:Ht, report; cbn; split;
        try done; try (by intros ([= <-] & ? & ?)); try (intros [= <-]; done);
        intros ([= <-] & ? & ?); congruence.
  - destruct fn as [|err]; cbn; [by left|].
    destruct (truthy err && report); [right; eauto | by left].
  - intros err Hin.
    repeat (apply elem_of_cons in Hin as [->|Hin]; [done|]).
    by apply elem_of_nil in Hin.
Qed.

End TestHelper.

(* ===================================================================== *)
(** * The log poller                                                      *)
(* ===================================================================== *)

Module LogPoller.
Import Js EthRPC EthjsAbi Abi ContractTypes OnLog Scenarios.
#[local] Open Scope Z_scope.

Lemma fetchedTo_app a b : fetchedTo (a ++ b) = fetchedTo a ++ fetchedTo b.
Proof. apply omap_app. Qed.

Section Loop.

Variable request : IGetLogsRequest → IGetLogsRequest.
Variable entries : list ILogEntry → Settled (list IContractEventLog).
Variable keepsCancel : bool.
Variable fn : IContractEventLog → bool.

Hypothesis request_toBlock : ∀ r, EthRPC.toBlock (request r) = EthRPC.toBlock r.

Abbreviation deliver := (OnLog.deliver fn).
Abbreviation step := (OnLog.step request entries keepsCancel fn).
Abbreviation run := (OnLog.run request entries keepsCancel fn).
Abbreviation subscribe := (OnLog.subscribe request entries keepsCancel fn).

(** Handing a batch to the consumer changes the loop's variables only if
    the consumer cancels, and then as the cancel function does. *)
Lemma deliver_state result : ∀ s,
  (deliver s result).1 = if existsb fn result then (cancel s).1 else s.
Proof.
  induction result as [|e result IH]; intros s; [done|].
  cbn [OnLog.deliver existsb]. destruct (fn e); cbn [orb].
  - specialize (IH (cancel s).1). destruct (cancel s) as [s1 called] eqn:Ec.
    cbn [fst] in IH. destruct (deliver s1 result) as [s2 later].
    cbn [fst] in *. rewrite IH. destruct (existsb fn result); [|done].
    unfold cancel in Ec. by injection Ec as <- _.
  - specialize (IH s). by destruct (deliver s result).
Qed.

Lemma deliver_fetchedTo result : ∀ s, fetchedTo (deliver s result).2 = [].
Proof.
  induction result as [|e result IH]; intros s; [done|].
  cbn [OnLog.deliver].
  destruct (if fn e then cancel s else (s, [])) as [s1 called] eqn:E.
  specialize (IH s1). destruct (deliver s1 result) as [s2 later].
  cbn [snd] in *. change (fetchedTo (called ++ later) = []).
  rewrite fetchedTo_app, IH, app_nil_r.
  destruct (fn e); [|by injection E as _ <-].
  unfold cancel in E. injection E as _ <-. by destruct (promiseCancel s).
Qed.

(** All the entries of a batch are delivered, in the order of the batch,
    whatever the consumer does meanwhile. *)
Lemma deliver_all result : ∀ s, delivered (deliver s result).2 = result.
Proof.
  unfold delivered.
  induction result as [|e result IH]; intros s; [done|].
  cbn [OnLog.deliver].
  destruct (if fn e then cancel s else (s, [])) as [s1 called] eqn:E.
  specialize (IH s1). destruct (deliver s1 result) as [s2 later].
  cbn [snd] in *. cbn [omap list_omap]. f_equal.
  rewrite omap_app, IH.
  destruct (fn e); [|by injection E as _ <-].
  unfold cancel in E. injection E as _ <-. by destruct (promiseCancel s).
Qed.

Lemma step_logs s result batch :
  suspended s = AwaitLogs → entries result = Fulfilled batch →
  step s (Logs result) =
    let s1 := if existsb fn batch then (cancel s).1 else s in
    let (s', next) :=
      loopHead {| opts := opts s1;
                  fromBlock := match latestBlockNum s1 with
                               | Some n => Height (n + 1)
                               | None => fromBlock s1
                               end;
                  toBlock := toBlock s1;
                  canceled := canceled s1; latestBlockNum := latestBlockNum s1;
                  isFirstFetch := isFirstFetch s1; fetchToLatest := fetchToLatest s1;
                  promiseCancel := promiseCancel s1; suspended := suspended s1 |} in
    (s', (deliver s batch).2 ++ next).
Proof.
  intros Hsus Hbatch. unfold OnLog.step. rewrite Hsus, Hbatch.
  pose proof (deliver_state batch s) as Hs.
  destruct (deliver s batch) as [s1 delivered]. cbn [fst snd] in *.
  by rewrite Hs.
Qed.

(** When [this.getLogs] throws, so does the loop: nothing is delivered and
    nothing more is done. *)
Lemma step_logs_thrown s result message :
  suspended s = AwaitLogs → entries result = Threw message →
  step s (Logs result) =
    ({| opts := opts s; fromBlock := fromBlock s; toBlock := toBlock s;
        canceled := canceled s; latestBlockNum := latestBlockNum s;
        isFirstFetch := isFirstFetch s; fetchToLatest := fetchToLatest s;
        promiseCancel := promiseCancel s; suspended := Thrown message |}, []).
Proof. intros Hsus Hthrow. unfold OnLog.step. by rewrite Hsus, Hthrow. Qed.

(** The answer to a fetch is delivered whole, whether or not the
    subscription has been cancelled while the fetch was in flight. *)
Lemma step_logs_delivers s result batch :
  suspended s = AwaitLogs → entries result = Fulfilled batch →
  delivered (step s (Logs result)).2 = batch.
Proof.
  intros Hsus Hbatch. rewrite (step_logs _ _ batch) by done. cbn zeta.
  destruct (loopHead _) as [s' next] eqn:E. cbn [snd].
  unfold delivered. rewrite omap_app. fold (delivered (deliver s batch).2).
  rewrite deliver_all.
  unfold loopHead in E. case_match; simplify_eq/=; by rewrite app_nil_r.
Qed.

Lemma run_app s inputs more :
  run s (inputs ++ more) =
    let (s', now) := run s inputs in
    let (s'', later) := run s' more in
    (s'', now ++ later).
Proof.
  revert s. induction inputs as [|i inputs IH]; intros s.
  - cbn. by destruct (run s more).
  - cbn [app OnLog.run]. destruct (step s i) as [s1 a1]. rewrite IH.
    destruct (run s1 inputs) as [s2 a2]. destruct (run s2 more) as [s3 a3].
    by rewrite app_assoc.
Qed.

Lemma subscribe_app opts inputs more :
  subscribe opts (inputs ++ more) =
    let (s, now) := subscribe opts inputs in
    let (s', later) := run s more in
    (s', now ++ later).
Proof.
  unfold OnLog.subscribe. destruct (onLog opts) as [s0 a0]. rewrite run_app.
  destruct (run s0 inputs) as [s1 a1]. destruct (run s1 more) as [s2 a2].
  by rewrite app_assoc.
Qed.

(** The answer to a fetch is handed to the consumer entry by entry. *)
Lemma subscribe_logs_delivered opts inputs result batch :
  suspended (subscribe opts inputs).1 = AwaitLogs →
  entries result = Fulfilled batch →
  delivered (subscribe opts (inputs ++ [Logs result])).2
  = delivered (subscribe opts inputs).2 ++ batch.
Proof.
  rewrite subscribe_app. destruct (subscribe opts inputs) as [s1 a1].
  cbn [fst snd OnLog.run]. intros Hsus Hbatch.
  pose proof (step_logs_delivers s1 result batch Hsus Hbatch) as Hd.
  destruct (step s1 (Logs result)) as [s2 a2]. cbn [snd] in *.
  unfold delivered in *. by rewrite !omap_app, Hd, app_nil_r.
Qed.

(** Case analysis on a step: the variables, the input and the suspension
    point; the delivery of a batch by [step_logs]. *)
Ltac step_cases s i :=
  let result := fresh "result" in
  destruct s as [o f t c l ff ftl pc sus];
  destruct i as [n| |result|], sus;
  try (let batch := fresh "batch" in
       let message := fresh "message" in
       let Hentries := fresh "Hentries" in
       destruct (entries result) as [batch|message] eqn:Hentries;
       [rewrite (step_logs _ _ batch) by done; destruct (existsb fn batch)
       |rewrite (step_logs_thrown _ _ message) by done]);
  unfold OnLog.step, loopHead, cancel;
  cbn in *; repeat case_match; simplify_eq/=;
  rewrite ?fetchedTo_app, ?deliver_fetchedTo; cbn.

Lemma step_bounded T s i :
  bounded T s →
  bounded T (step s i).1 ∧ Forall (λ t, t = Some (Height T)) (fetchedTo (step s i).2).
Proof.
  unfold bounded. intros (Hl & Ht & Hnum).
  step_cases s i; rewrite ?request_toBlock; cbn;
    (split; [done | by repeat constructor]).
Qed.

Lemma run_bounded T inputs : ∀ s,
  bounded T s →
  bounded T (run s inputs).1 ∧ Forall (λ t, t = Some (Height T)) (fetchedTo (run s inputs).2).
Proof.
  induction inputs as [|i inputs IH]; intros s Hb.
  - split; [done|constructor].
  - cbn [OnLog.run]. destruct (step_bounded T s i Hb) as [Hb1 Ha1].
    destruct (step s i) as [s1 a1]. cbn [fst snd] in *.
    destruct (IH s1 Hb1) as [Hb2 Ha2].
    destruct (run s1 inputs) as [s2 a2]. cbn [fst snd] in *.
    split; [done|]. rewrite fetchedTo_app. by apply Forall_app.
Qed.










Hypothesis request_fromBlock : ∀ r, EthRPC.fromBlock (request r) = EthRPC.fromBlock r.

Lemma fetches_app a b :
  Trace.fetches (a ++ b) = Trace.fetches a ++ Trace.fetches b.
Proof. apply omap_app. Qed.

Lemma delivered_app a b : delivered (a ++ b) = delivered a ++ delivered b.
Proof. apply omap_app. Qed.

Lemma deliver_fetches result : ∀ s, Trace.fetches (deliver s result).2 = [].
Proof.
  induction result as [|e result IH]; intros s; [done|].
  cbn [OnLog.deliver].
  destruct (if fn e then cancel s else (s, [])) as [s1 called] eqn:E.
  specialize (IH s1). destruct (deliver s1 result) as [s2 later].
  cbn [snd] in *. change (Trace.fetches (called ++ later) = []).
  rewrite fetches_app, IH, app_nil_r.
  destruct (fn e); [|by injection E as _ <-].
  unfold cancel in E. injection E as _ <-. by destruct (promiseCancel s).
Qed.

Lemma deliver_asks result : ∀ s,
  existsb Trace.asksBlockNumber (deliver s result).2 = false.
Proof.
  induction result as [|e result IH]; intros s; [done|].
  cbn [OnLog.deliver].
  destruct (if fn e then cancel s else (s, [])) as [s1 called] eqn:E.
  specialize (IH s1). destruct (deliver s1 result) as [s2 later].
  cbn [snd existsb Trace.asksBlockNumber orb] in *.
  rewrite existsb_app, IH, orb_false_r.
  destruct (fn e); [|by injection E as _ <-].
  unfold cancel in E. injection E as _ <-. by destruct (promiseCancel s).
Qed.

Lemma deliver_sleeps result : ∀ s,
  existsb Trace.sleeps (deliver s result).2 = false.
Proof.
  induction result as [|e result IH]; intros s; [done|].
  cbn [OnLog.deliver].
  destruct (if fn e then cancel s else (s, [])) as [s1 called] eqn:E.
  specialize (IH s1). destruct (deliver s1 result) as [s2 later].
  cbn [snd existsb Trace.sleeps orb] in *.
  rewrite existsb_app, IH, orb_false_r.
  destruct (fn e); [|by injection E as _ <-].
  unfold cancel in E. injection E as _ <-. by destruct (promiseCancel s).
Qed.

(** A step with what it shows: the requests for logs, the entries
    delivered, the requests for the block number. *)
Ltac step_trace s i :=
  let result := fresh "result" in
  destruct s as [o f t c l ff ftl pc sus];
  destruct i as [n| |result|], sus;
  try (let batch := fresh "batch" in
       let message := fresh "message" in
       let Hentries := fresh "Hentries" in
       destruct (entries result) as [batch|message] eqn:Hentries;
       [rewrite (step_logs _ _ batch) by done; destruct (existsb fn batch)
       |rewrite (step_logs_thrown _ _ message) by done]);
  unfold OnLog.step, loopHead, cancel;
  cbn in *; repeat case_match; simplify_eq/=;
  rewrite ?fetches_app, ?deliver_fetches, ?delivered_app, ?deliver_all,
    ?existsb_app, ?deliver_asks, ?deliver_sleeps; cbn.

(** The loop keeps the options it was given, and every request for logs
    goes out with their address and topics, from a height. *)
Lemma step_filter s i :
  opts (step s i).1 = opts s
  ∧ Forall (λ r, ∃ f t,
              r = request {| EthRPC.fromBlock := Some (Height f);
                             EthRPC.toBlock := Some t;
                             address := address (opts s);
                             topics := topics (opts s) |})
      (Trace.fetches (step s i).2).
Proof.
  step_trace s i; (split; [done|]); repeat constructor;
    try match goal with H : isNumber ?b = true |- _ => destruct b; [|done] end;
    eauto.
Qed.

Lemma run_filter inputs : ∀ s,
  Forall (λ r, ∃ f t,
            r = request {| EthRPC.fromBlock := Some (Height f);
                           EthRPC.toBlock := Some t;
                           address := address (opts s);
                           topics := topics (opts s) |})
    (Trace.fetches (run s inputs).2).
Proof.
  induction inputs as [|i inputs IH]; intros s; [constructor|].
  cbn [OnLog.run]. destruct (step_filter s i) as [Ho Ha].
  destruct (step s i) as [s1 a1]. cbn [fst snd] in *.
  specialize (IH s1). rewrite Ho in IH.
  destruct (run s1 inputs) as [s2 a2]. cbn [snd] in *.
  rewrite fetches_app. by apply Forall_app.
Qed.

Lemma subscribe_filter o inputs :
  Forall (λ r, ∃ f t,
            r = request {| EthRPC.fromBlock := Some (Height f);
                           EthRPC.toBlock := Some t;
                           address := address o; topics := topics o |})
    (Trace.fetches (subscribe o inputs).2).
Proof.
  unfold OnLog.subscribe, onLog, loopHead. cbn.
  pose proof (run_filter inputs
    {| opts := o; fromBlock := orLatest (EthRPC.fromBlock o);
       toBlock := orLatest (EthRPC.toBlock o); canceled := false;
       latestBlockNum := None; isFirstFetch := true;
       fetchToLatest := negb (isNumber (orLatest (EthRPC.fromBlock o)));
       promiseCancel := false; suspended := AwaitBlockNumber |}) as Hrun.
  destruct (run _ inputs) as [s1 a1]. exact Hrun.
Qed.

(** Following the head, a step keeps the windows in a chain. *)
Lemma step_chained last s i :
  Trace.chained last s →
  ∃ last',
    Trace.chained last' (step s i).1
    ∧ ∀ rest, Trace.adjacent last' rest = true →
              Trace.adjacent last (Trace.fetches (step s i).2 ++ rest) = true.
Proof.
  unfold Trace.chained. intros [Hl Hs].
  destruct s as [o f t c l ff ftl pc sus]. cbn in Hl, Hs. subst ftl.
  destruct i as [n| |result|], sus;
    try (exists last; unfold OnLog.step, loopHead, cancel; cbn;
         repeat case_match; cbn;
         (split; [split; [done | exact Hs] | intros rest Hrest; exact Hrest])).
  - destruct last as [z|]; destruct Hs as [-> Hf].
    + subst f. unfold OnLog.step. cbn.
      destruct (Z.ltb_spec n (z + 1)) as [Hlt|Hge]; cbn.
      { exists (Some z). split; [done|]. intros rest Hrest; exact Hrest. }
      destruct (Z.eqb_spec (z + 1) n) as [Heq|Hne]; cbn.
      { exists (Some z). split; [done|]. intros rest Hrest; exact Hrest. }
      exists (Some n). split; [split; [done|]; cbn; eauto|].
      intros rest Hrest. cbn. rewrite request_fromBlock, request_toBlock. cbn.
      rewrite Hrest, Z.eqb_refl. cbn.
      destruct (Z.ltb_spec (z + 1) n); [done|lia].
    + unfold OnLog.step. cbn. rewrite Hf. cbn. rewrite Z.ltb_irrefl. cbn.
      exists (Some n). split; [split; [done|]; cbn; eauto|].
      intros rest Hrest. cbn. rewrite request_fromBlock, request_toBlock. cbn.
      rewrite Hrest, Z.leb_refl. done.
  - unfold OnLog.step, loopHead. cbn. exists last.
    destruct c; cbn;
      (split; [split; [done | exact Hs] | intros rest Hrest; exact Hrest]).
  - destruct Hs as (-> & -> & [z ->]).
    destruct (entries result) as [batch|message] eqn:Hentries.
    + rewrite (step_logs _ _ batch) by done. cbn.
      exists (Some z).
      destruct (existsb fn batch); unfold loopHead; cbn;
        repeat case_match; simplify_eq/=;
        rewrite ?fetches_app, ?deliver_fetches; cbn;
        (split; [done|]); intros rest Hrest; exact Hrest.
    + rewrite (step_logs_thrown _ _ message) by done. cbn.
      exists (Some z). split; [done|]. intros rest Hrest; exact Hrest.
Qed.

Lemma run_chained inputs : ∀ last s,
  Trace.chained last s →
  Trace.adjacent last (Trace.fetches (run s inputs).2) = true.
Proof.
  induction inputs as [|i inputs IH]; intros last s Hs; [done|].
  cbn [OnLog.run]. destruct (step_chained last s i Hs) as (last' & Hs1 & Hnow).
  destruct (step s i) as [s1 a1]. cbn [fst snd] in *.
  specialize (IH last' s1 Hs1). destruct (run s1 inputs) as [s2 a2].
  cbn [snd] in *. rewrite fetches_app. by apply Hnow.
Qed.

Lemma subscribe_chained o inputs :
  orLatest (EthRPC.fromBlock o) = Latest →
  Trace.adjacent None (Trace.fetches (subscribe o inputs).2) = true.
Proof.
  intros Hfrom. unfold OnLog.subscribe, onLog, loopHead. rewrite Hfrom. cbn.
  pose proof (run_chained inputs None
    {| opts := o; fromBlock := Latest;
       toBlock := orLatest (EthRPC.toBlock o); canceled := false;
       latestBlockNum := None; isFirstFetch := true; fetchToLatest := true;
       promiseCancel := false; suspended := AwaitBlockNumber |}) as Hrun.
  destruct (run _ inputs) as [s1 a1]. apply Hrun. done.
Qed.

(** With a starting height and no final height, [toBlock] stays "latest":
    no comparison with it holds, so the loop never sleeps, and every block
    number it is told starts a fetch. *)
Lemma step_open s i :
  fetchToLatest s = false → toBlock s = Latest →
  (fetchToLatest (step s i).1 = false ∧ toBlock (step s i).1 = Latest)
  ∧ existsb Trace.sleeps (step s i).2 = false
  ∧ Forall (λ r, EthRPC.toBlock r = Some Latest) (Trace.fetches (step s i).2)
  ∧ (Trace.awaited s i = true → suspended s = AwaitBlockNumber →
     ∃ r, (step s i).2 = [GetLogs r]).
Proof.
  intros Hl Ht.
  step_trace s i; rewrite ?request_toBlock; cbn;
    try match goal with H : isNumber ?b = true |- _ => destruct b; [|done] end;
    cbn in *; rewrite ?andb_false_r in *; try done;
    repeat split; try done; eauto; by repeat constructor.
Qed.

Lemma run_open inputs : ∀ s,
  fetchToLatest s = false → toBlock s = Latest →
  (fetchToLatest (run s inputs).1 = false ∧ toBlock (run s inputs).1 = Latest)
  ∧ existsb Trace.sleeps (run s inputs).2 = false
  ∧ Forall (λ r, EthRPC.toBlock r = Some Latest) (Trace.fetches (run s inputs).2).
Proof.
  induction inputs as [|i inputs IH]; intros s Hl Ht.
  - repeat split; done.
  - cbn [OnLog.run]. destruct (step_open s i Hl Ht) as ([Hl1 Ht1] & Hs1 & Hf1 & _).
    destruct (step s i) as [s1 a1]. cbn [fst snd] in *.
    destruct (IH s1 Hl1 Ht1) as (Ho2 & Hs2 & Hf2).
    destruct (run s1 inputs) as [s2 a2]. cbn [fst snd] in *.
    split; [done|]. rewrite existsb_app, Hs1, Hs2, fetches_app.
    split; [done|]. by apply Forall_app.
Qed.

Lemma subscribe_open o inputs :
  isNumber (orLatest (EthRPC.fromBlock o)) = true →
  orLatest (EthRPC.toBlock o) = Latest →
  existsb Trace.sleeps (subscribe o inputs).2 = false
  ∧ Forall (λ r, EthRPC.toBlock r = Some Latest)
      (Trace.fetches (subscribe o inputs).2)
  ∧ (∀ n, suspended (subscribe o inputs).1 = AwaitBlockNumber →
          ∃ r, (subscribe o (inputs ++ [BlockNumber n])).2
               = (subscribe o inputs).2 ++ [GetLogs r]).
Proof.
  intros Hfrom Hto.
  assert (∀ more,
            subscribe o more =
            let (s', later) :=
              run {| opts := o; fromBlock := orLatest (EthRPC.fromBlock o);
                     toBlock := Latest; canceled := false;
                     latestBlockNum := None; isFirstFetch := true;
                     fetchToLatest := false; promiseCancel := false;
                     suspended := AwaitBlockNumber |} more in
            (s', GetBlockNumber :: later)) as Hsub.
  { intros more. unfold OnLog.subscribe, onLog, loopHead.
    rewrite Hfrom, Hto. reflexivity. }
  set (s0 := {| opts := o; fromBlock := orLatest (EthRPC.fromBlock o) |}) in Hsub.
  destruct (run_open inputs s0 eq_refl eq_refl) as ([Hl Ht] & Hs & Hf).
  split; [|split].
  - rewrite Hsub. by destruct (run s0 inputs).
  - rewrite Hsub. by destruct (run s0 inputs).
  - intros n. rewrite !Hsub, run_app.
    destruct (run s0 inputs) as [s1 a1]. cbn [fst snd OnLog.run] in *.
    intros Hsus.
    destruct (step_open s1 (BlockNumber n) Hl Ht) as (_ & _ & _ & Hfetch).
    destruct Hfetch as [r Hr]; [by unfold Trace.awaited; rewrite Hsus | done |].
    destruct (step s1 (BlockNumber n)) as [s2 a2]. cbn [snd] in Hr. subst a2.
    exists r. by rewrite app_nil_r.
Qed.

Lemma step_fetching s i : Trace.fetching s → Trace.fetching (step s i).1.
Proof.
  unfold Trace.fetching. intros Hs.
  destruct s as [o f t c l ff ftl pc sus].
  destruct i as [n| |result|], sus;
    unfold OnLog.step, loopHead, cancel; cbn in *;
    repeat case_match; simplify_eq/=; done.
Qed.

Lemma run_fetching inputs : ∀ s,
  Trace.fetching s → Trace.fetching (run s inputs).1.
Proof.
  induction inputs as [|i inputs IH]; intros s Hs; [done|].
  cbn [OnLog.run]. pose proof (step_fetching s i Hs) as Hs1.
  destruct (step s i) as [s1 a1]. specialize (IH s1 Hs1).
  by destruct (run s1 inputs).
Qed.

(** A window whose end [fromBlock] has reached after the first fetch is
    asked for no more. *)
Lemma step_exhausted T s i :
  bounded T s → Trace.exhausted T s →
  Trace.exhausted T (step s i).1 ∧ Trace.fetches (step s i).2 = [].
Proof.
  unfold bounded, Trace.exhausted.
  intros (Hl & Ht & _) He.
  destruct s as [o f t c l ff ftl pc sus]. cbn in *. subst.
  destruct i as [n| |result|], sus; try done;
    try destruct He as (-> & f0 & -> & HT);
    unfold OnLog.step, loopHead, cancel; cbn;
    repeat case_match; cbn; try (split; [by eauto | done]).
  all: destruct (Z.ltb_spec T f0), (Z.eqb_spec f0 T); cbn in *; try done; lia.
Qed.

Lemma run_exhausted T inputs : ∀ s,
  bounded T s → Trace.exhausted T s → Trace.fetches (run s inputs).2 = [].
Proof.
  induction inputs as [|i inputs IH]; intros s Hb He; [done|].
  cbn [OnLog.run]. destruct (step_bounded T s i Hb) as [Hb1 _].
  destruct (step_exhausted T s i Hb He) as [He1 Ha1].
  destruct (step s i) as [s1 a1]. cbn [fst snd] in *.
  specialize (IH s1 Hb1 He1). destruct (run s1 inputs) as [s2 a2].
  cbn [snd] in *. by rewrite fetches_app, Ha1, IH.
Qed.

(** The answer to a fetch made with the head at [T - 1] or above uses the
    window up. *)
Lemma step_exhausts T s result n :
  bounded T s → Trace.fetching s →
  suspended s = AwaitLogs → latestBlockNum s = Some n → T - 1 ≤ n →
  Trace.exhausted T (step s (Logs result)).1
  ∧ Trace.fetches (step s (Logs result)).2 = [].
Proof.
  unfold bounded, Trace.exhausted, Trace.fetching.
  intros (Hl & Ht & _) Hff Hsus Hn HT.
  destruct (entries result) as [batch|message] eqn:Hentries;
    [|by rewrite (step_logs_thrown _ _ message)].
  rewrite (step_logs _ _ batch) by done.
  destruct s as [o f t c l ff ftl pc sus]. cbn in *. subst.
  rewrite (Hff eq_refl).
  destruct (existsb fn batch); unfold loopHead; cbn;
    repeat case_match; simplify_eq/=;
    rewrite ?fetches_app, ?deliver_fetches; cbn;
    (split; [|done]); (split; [done|]);
    exists (n + 1); (split; [done | lia]).
Qed.

Lemma subscribe_exhausts f T address topics inputs n result more :
  f ≠ 0 → T ≠ 0 →
  suspended (subscribe (window f T address topics) inputs).1 = AwaitLogs →
  latestBlockNum (subscribe (window f T address topics) inputs).1 = Some n →
  T - 1 ≤ n →
  Trace.fetches (subscribe (window f T address topics)
                   (inputs ++ Logs result :: more)).2
  = Trace.fetches (subscribe (window f T address topics) inputs).2.
Proof.
  intros Hf HT. rewrite subscribe_app. unfold OnLog.subscribe.
  assert (onLog (window f T address topics) =
          ({| opts := window f T address topics; fromBlock := Height f;
              toBlock := Height T; canceled := false; latestBlockNum := None;
              isFirstFetch := true; fetchToLatest := false;
              promiseCancel := false; suspended := AwaitBlockNumber |},
           [GetBlockNumber])) as ->.
  { unfold onLog, window. cbn. by destruct f, T. }
  set (s0 := {| opts := window f T address topics; fromBlock := Height f |}).
  destruct (run_bounded T inputs s0) as [Hb1 _]; [done|].
  pose proof (run_fetching inputs s0) as Hf1.
  destruct (run s0 inputs) as [s1 a1]. cbn [fst snd OnLog.run] in *.
  intros Hsus Hn Hdeep.
  destruct (step_bounded T s1 (Logs result) Hb1) as [Hb2 _].
  destruct (step_exhausts T s1 result n Hb1 (Hf1 ltac:(done)) Hsus Hn Hdeep)
    as [He2 Ha2].
  destruct (step s1 (Logs result)) as [s2 a2]. cbn [fst snd] in *.
  pose proof (run_exhausted T more s2 Hb2 He2) as Hnone.
  destruct (run s2 more) as [s3 a3]. cbn [snd] in *.
  by rewrite !fetches_app, Ha2, Hnone, !app_nil_r.
Qed.

(** A cancelled loop stays cancelled and winds down. *)
Lemma step_winding s i : ∀ later,
  canceled s = true →
  canceled (step s i).1 = true
  ∧ (Trace.winding entries (step s i).1 later →
     Trace.winding entries s ((step s i).2 ++ later)).
Proof.
  intros later Hc. unfold Trace.winding.
  destruct s as [o f t c l ff ftl pc sus]. cbn in Hc. subst c.
  destruct i as [n| |result|], sus.
  all: try (destruct (entries result) as [batch|message] eqn:Hentries;
            [rewrite (step_logs _ _ batch) by done;
             pose proof (deliver_fetches batch
               {| opts := o; fromBlock := f; toBlock := t; canceled := true;
                  latestBlockNum := l; isFirstFetch := ff; fetchToLatest := ftl;
                  promiseCancel := pc; suspended := AwaitLogs |}) as Hdf;
             pose proof (deliver_all batch
               {| opts := o; fromBlock := f; toBlock := t; canceled := true;
                  latestBlockNum := l; isFirstFetch := ff; fetchToLatest := ftl;
                  promiseCancel := pc; suspended := AwaitLogs |}) as Hda;
             pose proof (deliver_asks batch
               {| opts := o; fromBlock := f; toBlock := t; canceled := true;
                  latestBlockNum := l; isFirstFetch := ff; fetchToLatest := ftl;
                  promiseCancel := pc; suspended := AwaitLogs |}) as Hdk;
             destruct (deliver _ batch) as [sd dl];
             cbn [snd] in Hdf, Hda, Hdk;
             destruct (existsb fn batch)
            |rewrite (step_logs_thrown _ _ message) by done]).
  all: unfold Trace.fetches, delivered in *.
  all: unfold OnLog.step, loopHead, cancel; cbn; repeat case_match; cbn.
  all: (split; [done|]); intros [Hask Hrest].
  all: rewrite ?omap_app, ?existsb_app, ?Hdf, ?Hda, ?Hdk; cbn.
  all: try (destruct Hrest as [Hf Hd]; rewrite ?Hask, ?Hf, ?Hd, ?app_nil_r).
  all: try done.
  all: try (split; [done|]; split; [cbn; lia | by left]).
  all: try (split; [done|]; split; [done | eauto]).
Qed.

Lemma run_winding inputs : ∀ s,
  canceled s = true → Trace.winding entries s (run s inputs).2.
Proof.
  induction inputs as [|i inputs IH]; intros s Hc.
  - unfold Trace.winding. cbn. destruct (suspended s); repeat split; auto.
  - cbn [OnLog.run]. destruct (step_winding s i (run (step s i).1 inputs).2 Hc)
      as [Hc1 Hnow].
    specialize (IH (step s i).1 Hc1).
    destruct (step s i) as [s1 a1]. cbn [fst snd] in *.
    destruct (run s1 inputs) as [s2 a2]. cbn [snd] in *. by apply Hnow.
Qed.

Lemma step_awaited s i :
  canceled s = true → Trace.awaited s i = true →
  canceled (step s i).1 = true
  ∧ (suspended s = AwaitBlockNumber → suspended (step s i).1 ≠ AwaitBlockNumber)
  ∧ (suspended s ≠ AwaitBlockNumber →
     returned (step s i).1 = true
     ∨ ∃ result message,
         i = Logs result ∧ entries result = Threw message
         ∧ suspended (step s i).1 = Thrown message).
Proof.
  intros Hc Hi. unfold Trace.awaited, returned in *.
  destruct s as [o f t c l ff ftl pc sus]. cbn in Hc. subst c.
  destruct i as [n| |result|], sus; try done.
  - unfold OnLog.step. cbn. by destruct (_ || _).
  - unfold OnLog.step, loopHead. cbn. repeat split; auto.
  - destruct (entries result) as [batch|message] eqn:Hentries.
    + rewrite (step_logs _ _ batch) by done. cbn.
      destruct (existsb fn batch); cbn; repeat split; auto.
    + rewrite (step_logs_thrown _ _ message) by done. cbn.
      repeat split; [done|]. intros _. right. by exists result, message.
Qed.

(** A cancelled loop is over at the latest on the second answer it is
    suspended for: it has returned, or it has thrown what [this.getLogs]
    threw on one of the two. *)
Lemma step_returns s i1 i2 :
  canceled s = true →
  Trace.awaited s i1 = true →
  Trace.awaited (step s i1).1 i2 = true →
  returned (step (step s i1).1 i2).1 = true
  ∨ ∃ result message,
      Logs result ∈ [i1; i2] ∧ entries result = Threw message
      ∧ suspended (step (step s i1).1 i2).1 = Thrown message.
Proof.
  intros Hc H1 H2.
  destruct (step_awaited s i1 Hc H1) as (Hc1 & Hsus & Hret).
  destruct (step_awaited (step s i1).1 i2 Hc1 H2) as (_ & _ & Hret2).
  destruct (suspended s) as [| | | |thrown] eqn:Hs.
  - destruct (Hret2 (Hsus eq_refl)) as [?|(result & message & -> & ? & ?)];
      [by left|].
    right. exists result, message. split; [|done].
    apply list_elem_of_further, list_elem_of_here.
  - destruct Hret as [Hr|(result & message & _ & _ & Hr)]; [done| |];
      unfold Trace.awaited, returned in *;
      by destruct (suspended (step s i1).1).
  - destruct Hret as [Hr|(result & message & _ & _ & Hr)]; [done| |];
      unfold Trace.awaited, returned in *;
      by destruct (suspended (step s i1).1).
  - destruct Hret as [Hr|(result & message & _ & _ & Hr)]; [done| |];
      unfold Trace.awaited, returned in *;
      by destruct (suspended (step s i1).1).
  - destruct Hret as [Hr|(result & message & _ & _ & Hr)]; [done| |];
      unfold Trace.awaited, returned in *;
      by destruct (suspended (step s i1).1).
Qed.

(** A loop that has thrown does nothing more. *)
Lemma step_thrown s i message :
  suspended s = Thrown message →
  suspended (step s i).1 = Thrown message
  ∧ delivered (step s i).2 = [] ∧ Trace.fetches (step s i).2 = [].
Proof.
  destruct s as [o f t c l ff ftl pc sus]. cbn. intros ->.
  destruct i; unfold OnLog.step, cancel; cbn; repeat case_match; done.
Qed.

Lemma run_thrown inputs : ∀ s message,
  suspended s = Thrown message →
  suspended (run s inputs).1 = Thrown message
  ∧ delivered (run s inputs).2 = [] ∧ Trace.fetches (run s inputs).2 = [].
Proof.
  induction inputs as [|i inputs IH]; intros s message Hs; [done|].
  cbn [OnLog.run]. destruct (step_thrown s i message Hs) as (Hs1 & Hd1 & Hf1).
  destruct (step s i) as [s1 a1]. cbn [fst snd] in *.
  destruct (IH s1 message Hs1) as (Hs2 & Hd2 & Hf2).
  destruct (run s1 inputs) as [s2 a2]. cbn [fst snd] in *.
  by rewrite delivered_app, fetches_app, Hd1, Hd2, Hf1, Hf2.
Qed.

(** When [this.getLogs] throws on the answer to a fetch, nothing of the
    answer is delivered, nor anything after it: the loop has thrown. *)
Lemma subscribe_logs_thrown opts inputs result message more :
  suspended (subscribe opts inputs).1 = AwaitLogs →
  entries result = Threw message →
  suspended (subscribe opts (inputs ++ Logs result :: more)).1 = Thrown message
  ∧ delivered (subscribe opts (inputs ++ Logs result :: more)).2
    = delivered (subscribe opts inputs).2
  ∧ Trace.fetches (subscribe opts (inputs ++ Logs result :: more)).2
    = Trace.fetches (subscribe opts inputs).2.
Proof.
  rewrite subscribe_app. destruct (subscribe opts inputs) as [s1 a1].
  cbn [fst snd OnLog.run]. intros Hsus Hthrow.
  rewrite (step_logs_thrown _ _ message) by done.
  set (s2 := {| opts := OnLog.opts s1; suspended := Thrown message |}).
  destruct (run_thrown more s2 message eq_refl) as (Hs & Hd & Hf).
  destruct (run s2 more) as [s3 a3]. cbn [fst snd app] in *.
  by rewrite delivered_app, fetches_app, Hd, Hf, !app_nil_r.
Qed.

End Loop.


Lemma withAddress_fromBlock address r :
  EthRPC.fromBlock (Contract.withAddress address r) = EthRPC.fromBlock r.
Proof. reflexivity. Qed.

(** The two loops are the loop of [OnLog] over a request that keeps both
    ends of the window. *)
Lemma subscribe_cases address logDecoder fn
    (subscribe : IGetLogsRequest → list Input → Subscription * list Action) :
  subscribe ∈ [Contract.subscribe address logDecoder fn;
               EventListener.subscribe logDecoder fn] →
  ∃ request keepsCancel,
    (∀ r, EthRPC.toBlock (request r) = EthRPC.toBlock r)
    ∧ (∀ r, EthRPC.fromBlock (request r) = EthRPC.fromBlock r)
    ∧ subscribe = OnLog.subscribe request (decodeEntries logDecoder) keepsCancel fn.
Proof.
  intros Hin. apply elem_of_cons in Hin as [->|Hin].
  - by exists (Contract.withAddress address), false.
  - apply elem_of_cons in Hin as [->|Hin]; [|by apply elem_of_nil in Hin].
    by exists id, true.
Qed.

(** Claim C8, as the code has it.  [getLogs], of the contract and of the
    listener, asks the node once and settles as the decoding of the answer
    does.  For an answer on none of whose logs [decode] throws, it returns
    one entry per raw log, in the node's order and with the raw log in it
    as it came, and the entry of a raw log the decoder finds no event for
    carries a null event; such a log never makes [decode] throw.  When
    [decode] throws on a log of the answer, and only then, [getLogs] is
    rejected, with the error of the first such log, and no entry of the
    answer is returned.  A subscription hands the consumer the entries of
    an answer to its fetch, all of them and in order, when [getLogs]
    returns them; when [getLogs] is rejected nothing of the answer is
    delivered, nor anything after it: the loop has thrown. *)
Theorem unknown_events_delivered (rpc : Node) (address : string)
    (logDecoder : ContractLogDecoder) (req : IGetLogsRequest) done :
  Contract.getLogs rpc address logDecoder req done
    = (decodeEntries logDecoder
         (node_getLogs rpc (Contract.withAddress address req)),
       done ++ [Async.RpcGetLogs (Contract.withAddress address req)])
  ∧ EventListener.getLogs rpc logDecoder req done
    = (decodeEntries logDecoder (node_getLogs rpc req),
       done ++ [Async.RpcGetLogs req])
  ∧ (∀ result : list ILogEntry,
       (∀ rawlog, rawlog ∈ result →
          ∃ parsed, decode logDecoder rawlog = Fulfilled parsed) →
       ∃ batch,
         decodeEntries logDecoder result = Fulfilled batch
         ∧ entry <$> batch = result
         ∧ ∀ i rawlog,
             result !! i = Some rawlog →
             (∃ parsed, decode logDecoder rawlog = Fulfilled parsed
                        ∧ batch !! i = Some {| entry := rawlog; event := parsed |})
             ∧ (_decoder logDecoder [rawlog] = Fulfilled [] →
                batch !! i = Some {| entry := rawlog; event := None |}))
  ∧ (∀ rawlog,
       _decoder logDecoder [rawlog] = Fulfilled [] →
       decode logDecoder rawlog = Fulfilled None)
  ∧ (∀ (result : list ILogEntry) message,
       decodeEntries logDecoder result = Threw message ↔
       ∃ before rawlog after,
         result = before ++ rawlog :: after
         ∧ Forall (λ l, ∃ parsed, decode logDecoder l = Fulfilled parsed) before
         ∧ decode logDecoder rawlog = Threw message)
  ∧ (∀ fn subscribe inputs result,
       subscribe ∈ [Contract.subscribe address logDecoder fn;
                    EventListener.subscribe logDecoder fn] →
       suspended (subscribe req inputs).1 = AwaitLogs →
       (∀ batch,
          decodeEntries logDecoder result = Fulfilled batch →
          delivered (subscribe req (inputs ++ [Logs result])).2
          = delivered (subscribe req inputs).2 ++ batch)
       ∧ (∀ message more,
            decodeEntries logDecoder result = Threw message →
            delivered (subscribe req (inputs ++ Logs result :: more)).2
            = delivered (subscribe req inputs).2
            ∧ suspended (subscribe req (inputs ++ Logs result :: more)).1
              = Thrown message)).
Proof.
  split; [reflexivity|]. split; [reflexivity|].
  split; [|split; [|split]].
  - intros result Hall.
    destruct (Decoding.decodeEntries_total logDecoder result Hall) as [batch Hbatch].
    destruct (Decoding.decodeEntries_fulfilled logDecoder result batch Hbatch)
      as [Hraw Hlookup].
    exists batch. do 2 (split; [done|]). intros i rawlog Hi.
    destruct (Hlookup i rawlog Hi) as (parsed & Hp & Hb).
    split; [by exists parsed|]. intros Hnone.
    rewrite (Decoding.decode_unknown logDecoder rawlog Hnone) in Hp.
    by injection Hp as <-.
  - apply Decoding.decode_unknown.
  - apply Decoding.decodeEntries_threw.
  - intros fn subscribe inputs result Hin Hsus.
    destruct (subscribe_cases address logDecoder fn subscribe Hin)
      as (request & keepsCancel & _ & _ & ->).
    split.
    + intros batch Hbatch. by apply subscribe_logs_delivered.
    + intros message more Hthrow.
      destruct (subscribe_logs_thrown request (decodeEntries logDecoder)
                  keepsCancel fn req inputs result message more Hsus Hthrow)
        as (Hs & Hd & _).
      done.
Qed.

(** Claim C8 at a batch of a known event, an unknown one and a known one,
    fetched by [getLogs] and handed to the consumer of a subscription. *)
Lemma unknown_events_delivered_witness :
  let batch := [fooLog; bazLog; fooLog] in
  (∃ entries,
     decodeEntries decoder batch = Fulfilled entries
     ∧ entries !! 1%nat = Some bazEntry)
  ∧ delivered (Contract.subscribe "0xc0" decoder listening (following None None)
                 ([BlockNumber 5] ++ [Logs batch])).2
    = [fooEntry; bazEntry; fooEntry].
Proof.
  cbv zeta.
  pose proof (unknown_events_delivered (fooNode "") "0xc0" decoder
                (following None None) []) as (_ & _ & Hbatch & _ & _ & Hpush).
  split.
  - destruct (Hbatch [fooLog; bazLog; fooLog]) as (entries & He & _ & Hlookup).
    { intros rawlog Hin.
      repeat (apply elem_of_cons in Hin as [->|Hin]; [by eexists|]).
      by apply elem_of_nil in Hin. }
    exists entries. split; [done|].
    apply (Hlookup 1%nat bazLog); reflexivity.
  - apply (Hpush listening (Contract.subscribe "0xc0" decoder listening)
             [BlockNumber 5] [fooLog; bazLog; fooLog]).
    + apply list_elem_of_here.
    + reflexivity.
    + reflexivity.
Defined.

(** Claim C8 fails as stated.  A batch of a log the decoder knows no event
    for and, behind it, a log of a known event that does not decode:
    [decode] throws on the second, [getLogs] of the contract and of the
    listener is rejected, and the subscription that fetched the batch
    throws with nothing delivered; the entry of the unknown event is
    lost. *)
Lemma unknown_event_lost_with_undecodable_log :
  _decoder strictDecoder [bazLog] = Fulfilled []
  ∧ decode strictDecoder barLog = Threw "invalid data for BarEvent"
  ∧ Contract.getLogs (logNode [bazLog; barLog]) "0xc0" strictDecoder
      (following None None) []
    = (Threw "invalid data for BarEvent",
       [Async.RpcGetLogs (Contract.withAddress "0xc0" (following None None))])
  ∧ EventListener.getLogs (logNode [bazLog; barLog]) strictDecoder
      (following None None) []
    = (Threw "invalid data for BarEvent",
       [Async.RpcGetLogs (following None None)])
  ∧ Contract.subscribe "0xc0" strictDecoder listening (following None None)
      [BlockNumber 5; Logs [bazLog; barLog]]
    = ({| opts := following None None; fromBlock := Height 5; toBlock := Height 5;
          canceled := false; latestBlockNum := Some 5; isFirstFetch := false;
          fetchToLatest := true; promiseCancel := false;
          suspended := Thrown "invalid data for BarEvent" |},
       [GetBlockNumber; fetch (Some "0xc0") (Height 5) (Height 5)]).
Proof. repeat split. Qed.

(** Claim C2.  Cancelling does not keep entries from the consumer.  A
    contract subscription with no options: the node answers the block
    number 5, the request for the logs of [5, 5] goes out, the caller
    invokes the cancel function, and the node answers with one log: the
    entry is delivered, after the flag was set, and only then does the loop
    return.  The same when the cancel function is invoked before the first
    block number has arrived, for the contract and for the listener: the
    fetch is still made and its entry delivered.  And a consumer that
    cancels from inside the callback, at the first entry of a batch of two,
    is handed the second entry all the same. *)
Theorem cancel_in_flight_still_delivers :
  Contract.subscribe "0xc0" decoder listening (following None None)
    [BlockNumber 5; Cancel]
    = ({| opts := following None None; fromBlock := Height 5; toBlock := Height 5;
          canceled := true; latestBlockNum := Some 5; isFirstFetch := false;
          fetchToLatest := true; promiseCancel := false; suspended := AwaitLogs |},
       [GetBlockNumber; fetch (Some "0xc0") (Height 5) (Height 5)])
  ∧ (Contract.subscribe "0xc0" decoder listening (following None None)
       [BlockNumber 5; Cancel; Logs [fooLog]]).2
    = [GetBlockNumber; fetch (Some "0xc0") (Height 5) (Height 5); Deliver fooEntry]
  ∧ returned (Contract.subscribe "0xc0" decoder listening (following None None)
                [BlockNumber 5; Cancel; Logs [fooLog]]).1 = true
  ∧ (Contract.subscribe "0xc0" decoder listening (following None None)
       [Cancel; BlockNumber 5; Logs [fooLog]]).2
    = [GetBlockNumber; fetch (Some "0xc0") (Height 5) (Height 5); Deliver fooEntry]
  ∧ (EventListener.subscribe decoder listening (following None None)
       [Cancel; BlockNumber 5; Logs [fooLog]]).2
    = [GetBlockNumber; fetch None (Height 5) (Height 5); Deliver fooEntry]
  ∧ (Contract.subscribe "0xc0" decoder unsubscribing (following None None)
       [BlockNumber 5; Logs [fooLog; bazLog]]).2
    = [GetBlockNumber; fetch (Some "0xc0") (Height 5) (Height 5);
       Deliver fooEntry; Deliver bazEntry]
  ∧ (EventListener.subscribe decoder unsubscribing (following None None)
       [BlockNumber 5; Logs [fooLog; bazLog]]).2
    = [GetBlockNumber; fetch None (Height 5) (Height 5);
       Deliver fooEntry; CancelPromise; Deliver bazEntry; CancelPromise].
Proof. repeat split. Qed.

(** Claim C4.  A subscription asked to start at height 0 does not replay
    from height 0: [opts.fromBlock || "latest"] takes 0 for absent, and with
    the head at 7 the first request, of the contract and of the listener,
    is for the logs of [7, 7], as when no height is given.  Asked to start
    at height 3, the first request is from 3. *)
Theorem fromBlock_zero_starts_at_head :
  let from (f : Z) :=
    {| EthRPC.fromBlock := Some (Height f); EthRPC.toBlock := None;
       EthRPC.address := None; EthRPC.topics := None |} in
  (Contract.subscribe "0xc0" decoder listening (from 0) [BlockNumber 7]).2
    = [GetBlockNumber; fetch (Some "0xc0") (Height 7) (Height 7)]
  ∧ (EventListener.subscribe decoder listening (from 0) [BlockNumber 7]).2
    = [GetBlockNumber; fetch None (Height 7) (Height 7)]
  ∧ (Contract.subscribe "0xc0" decoder listening (from 3) [BlockNumber 7]).2
    = [GetBlockNumber; fetch (Some "0xc0") (Height 3) Latest]
  ∧ (Contract.subscribe "0xc0" decoder listening (following None None)
       [BlockNumber 7]).2
    = [GetBlockNumber; fetch (Some "0xc0") (Height 7) (Height 7)].
Proof. cbv zeta. repeat split. Qed.




(** A final height given without a starting height is not kept: the loop
    takes the head for [toBlock], here 20 for the 10 asked for. *)
Example toBlock_without_fromBlock :
  (Contract.subscribe "0xc0" decoder listening
     {| EthRPC.fromBlock := None; EthRPC.toBlock := Some (Height 10);
        EthRPC.address := None; EthRPC.topics := None |}
     [BlockNumber 20]).2
  = [GetBlockNumber; fetch (Some "0xc0") (Height 20) (Height 20)].
Proof. reflexivity. Qed.

(** Property X12.  A contract asks the node for its own logs only.  Every
    request for logs a subscription of a contract makes carries the
    contract's address, whatever address the options name, and the topics of
    the options; a listener's requests carry the address and topics of its
    options; and either loop always asks from a concrete height, never from
    "latest".  [Contract.getLogs] sends one request, the caller's with the
    contract's address in it; [Contract.logs] sends one request with both
    ends of the window filled in: the caller's where given, height 0 and
    "latest" otherwise. *)
Theorem contract_fetches_own_address (rpc : Node) (address : string)
    (logDecoder : ContractLogDecoder) (fn : IContractEventLog → bool)
    (opts req : IGetLogsRequest) (inputs : list Input) :
  Forall (λ r, EthRPC.address r = Some address
               ∧ EthRPC.topics r = EthRPC.topics opts
               ∧ ∃ f, EthRPC.fromBlock r = Some (Height f))
    (Trace.fetches (Contract.subscribe address logDecoder fn opts inputs).2)
  ∧ Forall (λ r, EthRPC.address r = EthRPC.address opts
                 ∧ EthRPC.topics r = EthRPC.topics opts
                 ∧ ∃ f, EthRPC.fromBlock r = Some (Height f))
      (Trace.fetches (EventListener.subscribe logDecoder fn opts inputs).2)
  ∧ (∃ r, Async.performed (Contract.getLogs rpc address logDecoder req)
          = [Async.RpcGetLogs r]
          ∧ EthRPC.address r = Some address
          ∧ EthRPC.fromBlock r = EthRPC.fromBlock req
          ∧ EthRPC.toBlock r = EthRPC.toBlock req
          ∧ EthRPC.topics r = EthRPC.topics req)
  ∧ (∃ r, Async.performed (Contract.logs rpc address logDecoder req)
          = [Async.RpcGetLogs r]
          ∧ EthRPC.address r = Some address
          ∧ EthRPC.fromBlock r = Some (default (Height 0) (EthRPC.fromBlock req))
          ∧ EthRPC.toBlock r = Some (default Latest (EthRPC.toBlock req))
          ∧ EthRPC.topics r = EthRPC.topics req).
Proof.
  split; [|split; [|split]].
  - eapply Forall_impl; [apply subscribe_filter|].
    intros r (f & t & ->). cbn. eauto.
  - eapply Forall_impl; [apply subscribe_filter|].
    intros r (f & t & ->). cbn. eauto.
  - eexists. split; [reflexivity|]. done.
  - eexists. split; [reflexivity|]. done.
Qed.

(** Property X13.  Following the head, the windows a subscription asks for
    lie end to end.  For a subscription, of the contract or of the listener,
    whose options give no starting height (none, 0 or "latest"): every
    request is for a window between two heights; the first window is not
    empty; every later window starts one block past the end of the one
    before, so no block is asked for twice and none is skipped; and it ends
    above its start, so after the first fetch a single new block is not
    asked for until the head has moved on by two. *)
Theorem following_windows_adjacent (address : string)
    (logDecoder : ContractLogDecoder) (fn : IContractEventLog → bool)
    (subscribe : IGetLogsRequest → list Input → Subscription * list Action)
    (opts : IGetLogsRequest) (inputs : list Input) :
  subscribe ∈ [Contract.subscribe address logDecoder fn;
               EventListener.subscribe logDecoder fn] →
  orLatest (EthRPC.fromBlock opts) = Latest →
  Trace.adjacent None (Trace.fetches (subscribe opts inputs).2) = true.
Proof.
  intros Hin Hfrom.
  destruct (subscribe_cases address logDecoder fn subscribe Hin)
    as (request & keepsCancel & Hto & Hfr & ->).
  by apply subscribe_chained.
Qed.

(** A listener asked to start at height 0, the head at 5, then 6, then 8
    and then 9: the windows [5, 5] and [6, 8]; the heads 6 and 9 start no
    fetch. *)
Lemma following_windows_adjacent_witness :
  Trace.fetches
    (EventListener.subscribe decoder listening
       {| EthRPC.fromBlock := Some (Height 0); EthRPC.toBlock := None;
          EthRPC.address := None; EthRPC.topics := None |}
       [BlockNumber 5; Logs [fooLog]; BlockNumber 6; Woke; BlockNumber 8;
        Logs []; BlockNumber 9]).2
  = [window 5 5 None None; window 6 8 None None]
  ∧ Trace.adjacent None [window 5 5 None None; window 6 8 None None] = true.
Proof.
  split; [reflexivity|].
  apply (following_windows_adjacent "0xc0" decoder listening
           (EventListener.subscribe decoder listening)
           {| EthRPC.fromBlock := Some (Height 0); EthRPC.toBlock := None;
              EthRPC.address := None; EthRPC.topics := None |}
           [BlockNumber 5; Logs [fooLog]; BlockNumber 6; Woke; BlockNumber 8;
            Logs []; BlockNumber 9]).
  - apply list_elem_of_further, list_elem_of_here.
  - reflexivity.
Defined.

(** Property X14.  A subscription given a starting height and no final
    height never sleeps.  For the contract and for the listener, with a
    starting height other than 0 and with no final height (none, 0 or
    "latest"):  [toBlock] stays "latest" in every request, no comparison
    with it holds, so the loop never waits between polls, and every block
    number it is told is followed at once by a request for logs, whether or
    not the head has moved. *)
Theorem open_window_never_sleeps (address : string)
    (logDecoder : ContractLogDecoder) (fn : IContractEventLog → bool)
    (subscribe : IGetLogsRequest → list Input → Subscription * list Action)
    (opts : IGetLogsRequest) (inputs : list Input) :
  subscribe ∈ [Contract.subscribe address logDecoder fn;
               EventListener.subscribe logDecoder fn] →
  isNumber (orLatest (EthRPC.fromBlock opts)) = true →
  orLatest (EthRPC.toBlock opts) = Latest →
  existsb Trace.sleeps (subscribe opts inputs).2 = false
  ∧ Forall (λ r, EthRPC.toBlock r = Some Latest)
      (Trace.fetches (subscribe opts inputs).2)
  ∧ (∀ n, suspended (subscribe opts inputs).1 = AwaitBlockNumber →
          ∃ r, (subscribe opts (inputs ++ [BlockNumber n])).2
               = (subscribe opts inputs).2 ++ [GetLogs r]).
Proof.
  intros Hin Hfrom Hto.
  destruct (subscribe_cases address logDecoder fn subscribe Hin)
    as (request & keepsCancel & Hreq & _ & ->).
  by apply subscribe_open.
Qed.

(** A contract subscription from height 3, the head staying at 7: a request
    for logs after every block number, and no sleep. *)
Lemma open_window_never_sleeps_witness :
  let opts := {| EthRPC.fromBlock := Some (Height 3); EthRPC.toBlock := None;
                 EthRPC.address := None; EthRPC.topics := None |} in
  let inputs := [BlockNumber 7; Logs []; BlockNumber 7; Logs []; BlockNumber 7] in
  (Contract.subscribe "0xc0" decoder listening opts inputs).2
  = [GetBlockNumber; fetch (Some "0xc0") (Height 3) Latest;
     GetBlockNumber; fetch (Some "0xc0") (Height 8) Latest;
     GetBlockNumber; fetch (Some "0xc0") (Height 8) Latest]
  ∧ existsb Trace.sleeps (Contract.subscribe "0xc0" decoder listening opts inputs).2
    = false.
Proof.
  cbv zeta. split; [reflexivity|].
  apply (open_window_never_sleeps "0xc0" decoder listening
           (Contract.subscribe "0xc0" decoder listening)
           {| EthRPC.fromBlock := Some (Height 3); EthRPC.toBlock := None;
              EthRPC.address := None; EthRPC.topics := None |}
           [BlockNumber 7; Logs []; BlockNumber 7; Logs []; BlockNumber 7]).
  - apply list_elem_of_here.
  - reflexivity.
  - reflexivity.
Defined.

(** Property X18.  A window is asked for the last time as soon as a fetch
    is made with the head one block short of its end.  For a subscription,
    of the contract or of the listener, given a starting height and a final
    height T, neither of them 0: once a request for logs has gone out with
    the head at T - 1 or above, no further request is ever made, whatever
    the head does afterwards; [fromBlock] is then at T or past it, and the
    loop sleeps on [fromBlock === toBlock] as on [fromBlock > toBlock].  So
    when the head was at T - 1, the logs of block T are never asked for
    once it exists. *)
Theorem window_last_block_not_refetched (address : string)
    (logDecoder : ContractLogDecoder) (fn : IContractEventLog → bool)
    (subscribe : IGetLogsRequest → list Input → Subscription * list Action)
    (f T : Z) (addr : option string) (tpcs : option (list string))
    (inputs : list Input) (n : Z) :
  subscribe ∈ [Contract.subscribe address logDecoder fn;
               EventListener.subscribe logDecoder fn] →
  f ≠ 0 → T ≠ 0 →
  suspended (subscribe (window f T addr tpcs) inputs).1 = AwaitLogs →
  latestBlockNum (subscribe (window f T addr tpcs) inputs).1 = Some n →
  T - 1 ≤ n →
  ∀ result more,
    Trace.fetches (subscribe (window f T addr tpcs) (inputs ++ Logs result :: more)).2
    = Trace.fetches (subscribe (window f T addr tpcs) inputs).2.
Proof.
  intros Hin Hf HT Hsus Hn Hdeep result more.
  destruct (subscribe_cases address logDecoder fn subscribe Hin)
    as (request & keepsCancel & Hreq & _ & ->).
  by apply subscribe_exhausts with (n := n).
Qed.

(** The window [5, 10] of a contract subscription first fetched with the
    head at 9: the head moves on to 10 and to 12, and the one request made
    stays the only one. *)
Lemma window_last_block_not_refetched_witness :
  Trace.fetches
    (Contract.subscribe "0xc0" decoder listening (window 5 10 None None)
       ([BlockNumber 9]
        ++ Logs [fooLog] :: [BlockNumber 10; Woke; BlockNumber 12; Woke])).2
  = Trace.fetches
      (Contract.subscribe "0xc0" decoder listening (window 5 10 None None)
         [BlockNumber 9]).2.
Proof.
  apply (window_last_block_not_refetched "0xc0" decoder listening
           (Contract.subscribe "0xc0" decoder listening) 5 10 None None
           [BlockNumber 9] 9).
  - apply list_elem_of_here.
  - lia.
  - lia.
  - reflexivity.
  - reflexivity.
  - lia.
Defined.

(** Property X15.  Cancellation takes effect within one turn of the loop.
    Once the cancel function has been invoked, whatever follows: the loop
    does not ask for the block number again, it makes at most one more
    request for logs, and what it still hands to the consumer is the
    entries of at most one answer; a loop that has returned makes no
    request and delivers nothing; and the loop is over at the latest when
    the second of the answers it is suspended for has arrived: it has
    returned, or, when [getLogs] threw on one of the two answers, it has
    thrown that error. *)
Theorem cancelled_loop_winds_down (address : string)
    (logDecoder : ContractLogDecoder) (fn : IContractEventLog → bool)
    (subscribe : IGetLogsRequest → list Input → Subscription * list Action)
    (opts : IGetLogsRequest) (inputs : list Input) :
  subscribe ∈ [Contract.subscribe address logDecoder fn;
               EventListener.subscribe logDecoder fn] →
  canceled (subscribe opts inputs).1 = true →
  (∀ more, ∃ later,
     (subscribe opts (inputs ++ more)).2 = (subscribe opts inputs).2 ++ later
     ∧ existsb Trace.asksBlockNumber later = false
     ∧ (length (Trace.fetches later) ≤ 1)%nat
     ∧ (delivered later = []
        ∨ ∃ result, decodeEntries logDecoder result = Fulfilled (delivered later))
     ∧ (returned (subscribe opts inputs).1 = true →
        Trace.fetches later = [] ∧ delivered later = []))
  ∧ (∀ i1 i2,
       Trace.awaited (subscribe opts inputs).1 i1 = true →
       Trace.awaited (subscribe opts (inputs ++ [i1])).1 i2 = true →
       returned (subscribe opts (inputs ++ [i1; i2])).1 = true
       ∨ ∃ result message,
           Logs result ∈ [i1; i2]
           ∧ decodeEntries logDecoder result = Threw message
           ∧ suspended (subscribe opts (inputs ++ [i1; i2])).1 = Thrown message).
Proof.
  intros Hin.
  destruct (subscribe_cases address logDecoder fn subscribe Hin)
    as (request & keepsCancel & _ & _ & ->).
  intros Hc. split.
  - intros more. rewrite subscribe_app.
    destruct (OnLog.subscribe _ _ _ _ opts inputs) as [s now].
    cbn [fst snd] in *.
    pose proof (run_winding request (decodeEntries logDecoder) keepsCancel fn
                  more s Hc) as [Hask Hrest].
    destruct (OnLog.run _ _ _ _ s more) as [s' later]. cbn [snd] in *.
    exists later. split; [done|]. split; [done|].
    unfold returned.
    destruct (suspended s); destruct Hrest as [Hf Hd];
      rewrite ?Hf, ?Hd; cbn; repeat split; auto; done.
  - intros i1 i2.
    change [i1; i2] with ([i1] ++ [i2]). rewrite app_assoc.
    rewrite (subscribe_app _ _ _ _ opts (inputs ++ [i1]) [i2]).
    rewrite (subscribe_app _ _ _ _ opts inputs [i1]).
    destruct (OnLog.subscribe _ _ _ _ opts inputs) as [s now].
    cbn [fst snd OnLog.run] in *. intros H1.
    pose proof (step_returns request (decodeEntries logDecoder) keepsCancel fn
                  s i1 i2 Hc H1) as Hret.
    destruct (OnLog.step _ _ _ _ s i1) as [s1 a1]. cbn [fst snd] in *.
    intros H2. specialize (Hret H2).
    by destruct (OnLog.step _ _ _ _ s1 i2) as [s2 a2].
Qed.

(** A contract subscription cancelled before the first block number has
    arrived, the head then at 5 and a log in the answer: one request, one
    entry, no further request for the block number, and the loop has
    returned. *)
Lemma cancelled_loop_winds_down_witness :
  (∃ later,
     (Contract.subscribe "0xc0" decoder listening (following None None)
        ([Cancel] ++ [BlockNumber 5; Logs [fooLog]; BlockNumber 6; Woke])).2
     = (Contract.subscribe "0xc0" decoder listening (following None None)
          [Cancel]).2 ++ later
     ∧ existsb Trace.asksBlockNumber later = false
     ∧ (length (Trace.fetches later) ≤ 1)%nat)
  ∧ returned (Contract.subscribe "0xc0" decoder listening (following None None)
                ([Cancel] ++ [BlockNumber 5; Logs [fooLog]])).1 = true.
Proof.
  destruct (cancelled_loop_winds_down "0xc0" decoder listening
              (Contract.subscribe "0xc0" decoder listening)
              (following None None) [Cancel])
    as [Hmore Hret].
  - apply list_elem_of_here.
  - reflexivity.
  - split.
    + destruct (Hmore [BlockNumber 5; Logs [fooLog]; BlockNumber 6; Woke])
        as (later & Hl & Hask & Hf & _).
      exists later. auto.
    + destruct (Hret (BlockNumber 5) (Logs [fooLog]) eq_refl eq_refl)
        as [Hreturned|(result & message & _ & _ & Hthrown)];
        [exact Hreturned | discriminate Hthrown].
Defined.



End LogPoller.
